(** * certmagic storage on a generic S3 bucket: locks, blobs and their wrapper

    A shallow embedding of package [cmgs3]: the storage type [S3Storage]
    with its constructor [NewS3Storage] and its methods [Lock], [Unlock],
    [Store], [Load], [Delete], [Exists], [List] and [Stat].

    The S3 client (minio-go), the wall clock, the [context.Context] handed in
    by the caller and the process log are the environment of the package.
    They are gathered in one explicit [World] that every method threads
    through a state monad; a method is a function [World → result * World].

    Layout of the file: errors, time, the world and the S3 client model,
    the storage methods, a concrete RFC 3339 layout to run examples with,
    and then the properties. *)

From Stdlib Require Import ZArith Lia String Ascii List.
From Stdlib.Strings Require Import Byte.
From stdpp Require Import base option list gmap strings sets.

Open Scope string_scope.
Open Scope list_scope.
Open Scope Z_scope.

(** ** Bytes and strings

    A Go [[]byte] is a list of bytes, a Go [string] is a [string]; the
    conversions [[]byte(s)] and [string(b)] are the Standard Library's. *)

Abbreviation bytes := (list byte).

#[global] Instance byte_eq_decision : EqDecision byte := Byte.byte_eq_dec.

Definition bytes_of_string (s : string) : bytes := list_byte_of_string s.
Definition string_of_bytes (b : bytes) : string := string_of_list_byte b.

(** ** Errors

    The error values the package creates, tests or passes along. *)

Inductive error : Type :=
  | ErrorResponse (StatusCode : Z) (Code : string)  (* minio.ErrorResponse *)
  | errorString (s : string)                         (* errors.New, fmt.Errorf without %w *)
  | wrapError (msg : string) (err : error)           (* fmt.Errorf("msg: %w", err) *)
  | ErrNotExist                                      (* fs.ErrNotExist *)
  | Canceled                                         (* context.Canceled *)
  | DeadlineExceeded.                                (* context.DeadlineExceeded *)

#[global] Instance error_eq_dec : EqDecision error.
Proof. solve_decision. Defined.

Definition StatusNotFound : Z := 404.
Definition StatusBadRequest : Z := 400.

(** [errors.As(err, &respErr)] with [respErr] a [minio.ErrorResponse]:
    the status code of the first [ErrorResponse] in the chain of [err]. *)
Fixpoint errors_As (err : error) : option Z :=
  match err with
  | ErrorResponse sc _ => Some sc
  | wrapError _ e => errors_As e
  | _ => None
  end.

(** [errors.As(err, &respErr) && respErr.StatusCode == http.StatusNotFound] *)
Definition isNotFound (err : error) : bool :=
  match errors_As err with
  | Some sc => bool_decide (sc = StatusNotFound)
  | None => false
  end.

(** [errors.As(err, &respErr) && respErr.StatusCode != http.StatusNotFound] *)
Definition isOtherResponse (err : error) : bool :=
  match errors_As err with
  | Some sc => bool_decide (sc ≠ StatusNotFound)
  | None => false
  end.

(** The chain of an error, as [errors.Is] and [errors.Unwrap] see it. *)
Fixpoint errors_Is (err target : error) : bool :=
  if bool_decide (err = target) then true
  else match err with
       | wrapError _ e => errors_Is e target
       | _ => false
       end.

Inductive result (A : Type) : Type :=
  | Ok (a : A)
  | Fail (e : error).
Arguments Ok {A} a.
Arguments Fail {A} e.

(** ** Time

    A [time.Time] is its number of nanoseconds since the Unix epoch, a
    [time.Duration] a number of nanoseconds. *)

Definition Time : Type := Z.
Definition Duration : Type := Z.

Definition Nanosecond : Duration := 1.
Definition Second : Duration := 1000000000.
Definition Minute : Duration := 60 * Second.

Definition Add (t : Time) (d : Duration) : Time := t + d.
Definition After (t u : Time) : bool := bool_decide (u < t).
Definition Before (t u : Time) : bool := bool_decide (t < u).
Definition Sub (t u : Time) : Duration := t - u.

(** [t.Format(time.RFC3339)] and [time.Parse(time.RFC3339, s)] belong to
    the Go library; the package only needs that they exist. *)
Class TimeLayout : Type := {
  time_Format : Time → string;
  time_Parse : string → option Time
}.

(** ** The caller's context

    [done_at] is the instant at which [ctx.Done()] is closed ([None]: never),
    [cause] what [ctx.Err()] reports from then on. *)

Inductive ctxCause : Type := CauseCanceled | CauseDeadline.

Record Context : Type := {
  done_at : option Time;
  cause : ctxCause
}.

Definition ctx_Err_value (c : ctxCause) : error :=
  match c with
  | CauseCanceled => Canceled
  | CauseDeadline => DeadlineExceeded
  end.

Definition Background : Context := {| done_at := None; cause := CauseCanceled |}.

(** [context.WithTimeout(ctx, d)] called at instant [now]. *)
Definition WithTimeout (ctx : Context) (now : Time) (d : Duration) : Context :=
  match done_at ctx with
  | Some t => if bool_decide (t <= now + d) then ctx
              else {| done_at := Some (now + d); cause := CauseDeadline |}
  | None => {| done_at := Some (now + d); cause := CauseDeadline |}
  end.

(** ** The world: bucket contents, clock, network, log *)

Record Blob : Type := {
  content : bytes;
  modified : Time
}.

(** What the network does to one request: how long it takes and whether it
    fails (and with which error) instead of being served. *)
Record Reply : Type := {
  latency : N;
  failure : option error
}.

Definition served : Reply := {| latency := 0%N; failure := None |}.

Inductive logArg : Type :=
  | LStr (s : string)
  | LTime (t : Time).

(** The requests the package sends to the S3 service. *)
Inductive Request : Type :=
  | ReqGetObject (bucket name : string)
  | ReqReadAll (bucket name : string)
  | ReqPutObject (bucket name : string) (data : bytes)
  | ReqRemoveObject (bucket name : string)
  | ReqStatObject (bucket name : string)
  | ReqListObjects (bucket prefix : string) (recursive : bool)
  | ReqBucketExists (bucket : string).

(** What the package did to its environment, newest first: the requests
    with the error each came back with, the log lines, and how each wait
    ended. *)
Inductive Event : Type :=
  | EvRequest (req : Request) (err : option error)
  | EvLog (format : string) (args : list logArg)
  | EvTimer (d : Duration)        (* waited for [d], the timer fired *)
  | EvDone.                       (* [<-ctx.Done()] was received *)

Record World : Type := mkWorld {
  buckets : gmap string (gmap string Blob);
  clock : Time;
  replies : list Reply;           (* one per request, in order; none left: [served] *)
  entropy : nat → byte;           (* crypto/rand, as an endless stream *)
  drawn : nat;                    (* how much of it was read *)
  trace : list Event;
  (* the package-level variables *)
  LockExpiration : Duration;
  LockPollInterval : Duration;
  LockTimeout : Duration
}.

Definition set_buckets (f : gmap string (gmap string Blob) → gmap string (gmap string Blob))
    (w : World) : World :=
  mkWorld (f (buckets w)) (clock w) (replies w) (entropy w) (drawn w) (trace w)
          (LockExpiration w) (LockPollInterval w) (LockTimeout w).

Definition set_clock (t : Time) (w : World) : World :=
  mkWorld (buckets w) t (replies w) (entropy w) (drawn w) (trace w)
          (LockExpiration w) (LockPollInterval w) (LockTimeout w).

Definition set_replies (l : list Reply) (w : World) : World :=
  mkWorld (buckets w) (clock w) l (entropy w) (drawn w) (trace w)
          (LockExpiration w) (LockPollInterval w) (LockTimeout w).

Definition set_drawn (n : nat) (w : World) : World :=
  mkWorld (buckets w) (clock w) (replies w) (entropy w) n (trace w)
          (LockExpiration w) (LockPollInterval w) (LockTimeout w).

Definition emit (e : Event) (w : World) : World :=
  mkWorld (buckets w) (clock w) (replies w) (entropy w) (drawn w) (e :: trace w)
          (LockExpiration w) (LockPollInterval w) (LockTimeout w).

(** The state monad over the world. *)
Definition M (A : Type) : Type := World → A * World.

#[global] Instance M_ret : MRet M := λ A a w, (a, w).
#[global] Instance M_bind : MBind M := λ A B k m w, let '(a, w') := m w in k a w'.
#[global] Instance M_fmap : FMap M := λ A B f m w, let '(a, w') := m w in (f a, w').

Definition get_world : M World := λ w, (w, w).
Definition modify (f : World → World) : M unit := λ w, (tt, f w).

(** [time.Now()] *)
Definition time_Now : M Time := λ w, (clock w, w).

(** [log.Printf] and [log.Println] *)
Definition log_Printf (format : string) (args : list logArg) : M unit :=
  modify (emit (EvLog format args)).

(** ** Strings: the little of package [strings] that is needed *)

(** [strings.TrimPrefix] when [p] is a prefix of [s], [None] otherwise. *)
Fixpoint strip_prefix (p s : string) : option string :=
  match p, s with
  | EmptyString, _ => Some s
  | String a p', String b s' => if Ascii.eqb a b then strip_prefix p' s' else None
  | String _ _, EmptyString => None
  end.

(** [strings.HasPrefix(s, p)] *)
Definition HasPrefix (s p : string) : bool :=
  match strip_prefix p s with Some _ => true | None => false end.

(** The part of [s] up to and including its first "/", if it has one. *)
Fixpoint upto_slash (s : string) : option string :=
  match s with
  | EmptyString => None
  | String c s' =>
      if Ascii.eqb c "/" then Some "/"
      else match upto_slash s' with
           | Some d => Some (String c d)
           | None => None
           end
  end.

(** ** The S3 client (minio-go), as the package uses it

    Every call is one request: it consumes the next [Reply] of the world,
    lets its latency pass and is recorded in the trace. A request whose
    reply is a failure has no effect on the bucket. A request that the
    network serves behaves as S3 does: reading or inspecting a missing
    object is a 404 response, removing a missing object succeeds.
    The context argument is what the Go call is given; a request cut short
    by the context appears here as a failing reply. *)

Module minio.

Record Object : Type := {
  obj_bucket : string;
  obj_name : string
}.

Record ObjectInfo : Type := {
  Key : string;
  Size : Z;
  LastModified : Time;
  Err : option error
}.

Definition NoSuchKey : error := ErrorResponse StatusNotFound "NoSuchKey".
Definition NoSuchBucket : error := ErrorResponse StatusNotFound "NoSuchBucket".

Definition error_of {A} (r : result A) : option error :=
  match r with Ok _ => None | Fail e => Some e end.

(** One request: the next reply of the network is consumed and its
    latency passes; when the reply is not a failure the service serves
    the request with [serve]. The request and its error are recorded. *)
Definition call {A} (req : Request) (serve : World → result A * World)
    : M (result A) := λ w,
  let r := hd served (replies w) in
  let w1 := set_clock (clock w + Z.of_N (latency r)) (set_replies (tl (replies w)) w) in
  match failure r with
  | Some e => (Fail e, emit (EvRequest req (Some e)) w1)
  | None => let '(res, w2) := serve w1 in (res, emit (EvRequest req (error_of res)) w2)
  end.

Definition lookup_object (bucket name : string) (w : World) : result Blob :=
  match buckets w !! bucket with
  | None => Fail NoSuchBucket
  | Some objs =>
      match objs !! name with
      | None => Fail NoSuchKey
      | Some b => Ok b
      end
  end.

(** [c.GetObject(ctx, bucket, name, opts)]: the object is fetched when it
    is read. *)
Definition GetObject (ctx : Context) (bucket name : string) : M (result Object) :=
  call (ReqGetObject bucket name)
       (λ w, (Ok {| obj_bucket := bucket; obj_name := name |}, w)).

(** [ioutil.ReadAll(obj)] *)
Definition ReadAll (obj : Object) : M (result bytes) :=
  call (ReqReadAll (obj_bucket obj) (obj_name obj))
       (λ w, match lookup_object (obj_bucket obj) (obj_name obj) w with
             | Ok b => (Ok (content b), w)
             | Fail e => (Fail e, w)
             end).

(** [c.PutObject(ctx, bucket, name, reader, size, opts)] *)
Definition PutObject (ctx : Context) (bucket name : string) (data : bytes)
    : M (option error) :=
  error_of <$> call (ReqPutObject bucket name data)
    (λ w, match buckets w !! bucket with
          | None => (Fail NoSuchBucket, w)
          | Some objs =>
              (Ok tt, set_buckets
                 (<[bucket := <[name := {| content := data; modified := clock w |}]> objs]>) w)
          end).

(** [c.RemoveObject(ctx, bucket, name, opts)] *)
Definition RemoveObject (ctx : Context) (bucket name : string) : M (option error) :=
  error_of <$> call (ReqRemoveObject bucket name)
    (λ w, match buckets w !! bucket with
          | None => (Fail NoSuchBucket, w)
          | Some objs => (Ok tt, set_buckets (<[bucket := delete name objs]>) w)
          end).

(** [c.StatObject(ctx, bucket, name, opts)] *)
Definition StatObject (ctx : Context) (bucket name : string) : M (result ObjectInfo) :=
  call (ReqStatObject bucket name)
    (λ w, match lookup_object bucket name w with
          | Ok b => (Ok {| Key := name; Size := Z.of_nat (length (content b));
                           LastModified := modified b; Err := None |}, w)
          | Fail e => (Fail e, w)
          end).

(** The key a listing shows for object [k]: [k] itself, or, in a
    listing that is not recursive, the common prefix that ends at the
    first "/" after [prefix]. [None] when [k] is outside [prefix]. *)
Definition list_entry (prefix : string) (recursive : bool) (k : string) : option string :=
  match strip_prefix prefix k with
  | None => None
  | Some rest =>
      if recursive then Some k
      else match upto_slash rest with
           | Some d => Some (prefix +:+ d)
           | None => Some k
           end
  end.

Definition listing (objs : gmap string Blob) (prefix : string) (recursive : bool)
    : list string :=
  elements (list_to_set (C := gset string)
              (omap (list_entry prefix recursive) (elements (dom objs)))).

Definition info_of (objs : gmap string Blob) (k : string) : ObjectInfo :=
  match objs !! k with
  | Some b => {| Key := k; Size := Z.of_nat (length (content b));
                 LastModified := modified b; Err := None |}
  | None => {| Key := k; Size := 0; LastModified := 0; Err := None |}
  end.

Definition failed_entry (e : error) : ObjectInfo :=
  {| Key := ""; Size := 0; LastModified := 0; Err := Some e |}.

(** [c.ListObjects(ctx, bucket, ListObjectsOptions{Prefix, Recursive})]:
    everything the channel delivers. A failure is delivered as one entry
    that has [Err] set and an empty [Key]. *)
Definition ListObjects (ctx : Context) (bucket prefix : string) (recursive : bool)
    : M (list ObjectInfo) :=
  r ← call (ReqListObjects bucket prefix recursive)
        (λ w, match buckets w !! bucket with
              | None => (Fail NoSuchBucket, w)
              | Some objs => (Ok (info_of objs <$> listing objs prefix recursive), w)
              end);
  match r with
  | Ok entries => mret entries
  | Fail e => mret [failed_entry e]
  end.

(** [c.BucketExists(ctx, bucket)] *)
Definition BucketExists (ctx : Context) (bucket : string) : M (result bool) :=
  call (ReqBucketExists bucket)
       (λ w, (Ok (bool_decide (is_Some (buckets w !! bucket))), w)).

End minio.

(** [minio.New] only builds the client value; it sends nothing. *)
Record Client : Type := {
  Endpoint_of : string;
  Creds : string * string;
  Secure : bool
}.

Module certmagic.

Record KeyInfo : Type := {
  Key : string;
  Modified : Time;
  Size : Z;
  IsTerminal : bool
}.

(** The zero value, [var ki certmagic.KeyInfo]. *)
Definition zero : KeyInfo :=
  {| Key := ""; Modified := 0; Size := 0; IsTerminal := false |}.

End certmagic.

(** ** The wrapper around stored payloads

    The two implementations of interface [IO] are not part of the files at
    hand; [NewS3Storage] only builds them, [Store] and [Load] call their
    methods [ByteReader] and [WrapReader]. *)

(** Modelled from the spec: the two variants of the encryption wrapper
    (the declarations of [CleartextIO] and [SecretBoxIO] are missing);
    "Variants: identity (cleartext) and authenticated-symmetric-encryption
    (secret-box)", the latter holding "a fixed 32-byte key". *)
Inductive IO : Type :=
  | CleartextIO
  | SecretBoxIO (SecretKey : bytes).

(** The authenticated cipher behind the secret-box variant is a library
    (NaCl secretbox): sealing under a 32-byte key and a 24-byte nonce, and
    opening, which gives the message back for what was sealed under the
    same key and nonce. *)
Class SecretBox : Type := {
  secretbox_Seal : bytes → bytes → bytes → bytes;        (* key, nonce, message *)
  secretbox_Open : bytes → bytes → bytes → option bytes;  (* key, nonce, box *)
  secretbox_Open_Seal : ∀ key nonce msg,
    length key = 32%nat → length nonce = 24%nat →
    secretbox_Open key nonce (secretbox_Seal key nonce msg) = Some msg
}.

Definition NonceSize : nat := 24.
Definition KeySize : nat := 32.

(** [io.ReadFull(rand.Reader, buf)] for a buffer of [n] bytes. *)
Definition rand_Read (n : nat) : M bytes := λ w,
  (entropy w <$> seq (drawn w) n, set_drawn (drawn w + n)%nat w).

Definition ErrAuthentication : error := errorString "secretbox: could not decrypt".

Section Wrapper.
Context `{SecretBox}.

(** Modelled from the spec: method [ByteReader] of the wrapper (its code
    is missing). Cleartext: "[encode(bytes) -> bytes] ... the identity
    function"; secret-box: "[encode(plaintext) -> nonce ‖ ciphertext] using
    a fixed 32-byte key and a freshly generated nonce per call". *)
Definition ByteReader (io : IO) (value : bytes) : M bytes :=
  match io with
  | CleartextIO => mret value
  | SecretBoxIO key =>
      nonce ← rand_Read NonceSize;
      mret (nonce ++ secretbox_Seal key nonce value)
  end.

(** Modelled from the spec: what reading through [WrapReader] yields for
    the stored bytes (its code is missing). Cleartext: identity;
    secret-box: "[decode(stream)] splits off the nonce prefix and
    authenticates+decrypts the remainder, failing with an authentication
    error (not returning garbage) if the key is wrong or the bytes were
    altered". *)
Definition WrapReader (io : IO) (stream : bytes) : result bytes :=
  match io with
  | CleartextIO => Ok stream
  | SecretBoxIO key =>
      if bool_decide (length stream < NonceSize)%nat then Fail ErrAuthentication
      else match secretbox_Open key (take NonceSize stream) (drop NonceSize stream) with
           | Some msg => Ok msg
           | None => Fail ErrAuthentication
           end
  end.

End Wrapper.

(** ** The storage *)

Record S3Opts : Type := {
  Endpoint : string;
  Bucket : string;
  AccessKeyID : string;
  SecretAccessKey : string;
  ObjPrefix : string;
  Insecure : bool;
  EncryptionKey : bytes        (* [nil] and the empty slice are both [[]] *)
}.

Record S3Storage : Type := {
  prefix : string;
  bucket : string;
  s3client : Client;
  iowrap : IO
}.

(** The defaults of the package-level variables. *)
Definition default_LockExpiration : Duration := 2 * Minute.
Definition default_LockPollInterval : Duration := 1 * Second.
Definition default_LockTimeout : Duration := 15 * Second.

Definition objName (gs : S3Storage) (key : string) : string :=
  prefix gs +:+ "/" +:+ key.

Definition objLockName (gs : S3Storage) (key : string) : string :=
  objName gs key +:+ ".lock".

(** [ctx.Err()] *)
Definition ctx_Err (ctx : Context) : M (option error) := λ w,
  match done_at ctx with
  | Some t => if bool_decide (t <= clock w) then (Some (ctx_Err_value (cause ctx)), w)
              else (None, w)
  | None => (None, w)
  end.

(** [select { case <-time.After(d): case <-ctx.Done(): ... }]: whichever
    comes first; [true] when it is [ctx.Done()]. The wait ends at that
    instant. When both fall on the same instant the context is taken. *)
Definition select_After_or_Done (ctx : Context) (d : Duration) : M bool := λ w,
  let wake := clock w + Z.max 0 d in
  match done_at ctx with
  | Some t =>
      if bool_decide (t <= wake)
      then (true, emit EvDone (set_clock (Z.max (clock w) t) w))
      else (false, emit (EvTimer d) (set_clock wake w))
  | None => (false, emit (EvTimer d) (set_clock wake w))
  end.

(** [time.Sleep(d)] *)
Definition time_Sleep (d : Duration) : M unit := λ w,
  (tt, emit (EvTimer d) (set_clock (clock w + Z.max 0 d) w)).

Section Storage.
Context `{TimeLayout} `{SecretBox}.

(** What [minio.New] answers for an endpoint: an error for one it cannot
    make a URL of, nothing otherwise. It is a check of the string. *)
Variable endpoint_error : string → option error.

Definition minio_New (endpoint : string) (creds : string * string) (secure : bool)
    : result Client :=
  match endpoint_error endpoint with
  | Some e => Fail e
  | None => Ok {| Endpoint_of := endpoint; Creds := creds; Secure := secure |}
  end.

Definition NewS3Storage (ctx : Context) (opts : S3Opts) : M (result S3Storage) :=
  let withClient (io : IO) : M (result S3Storage) :=
    match minio_New (Endpoint opts) (AccessKeyID opts, SecretAccessKey opts)
                    (negb (Insecure opts)) with
    | Fail err => mret (Fail (wrapError "geting s3 client" err))
    | Ok client =>
        let gs3 := {| prefix := ObjPrefix opts; bucket := Bucket opts;
                      s3client := client; iowrap := io |} in
        now ← time_Now;
        let ctx := WithTimeout ctx now (5 * Second) in
        r ← minio.BucketExists ctx (Bucket opts);
        match r with
        | Fail err => mret (Fail (wrapError "checking if bucket exists" err))
        | Ok false => mret (Fail (errorString ("S3 bucket " +:+ Bucket opts +:+ " does not exist")))
        | Ok true => mret (Ok gs3)
        end
    end in
  if bool_decide (length (EncryptionKey opts) = 0%nat) then
    log_Printf "Clear text certificate storage active" [];;
    withClient CleartextIO
  else if bool_decide (length (EncryptionKey opts) ≠ 32%nat) then
    mret (Fail (errorString "encryption key must have exactly 32 bytes"))
  else
    log_Printf "Encrypted certificate storage active" [];;
    withClient (SecretBoxIO (EncryptionKey opts)).

Definition putLockFile (gs : S3Storage) (ctx : Context) (key : string)
    : M (option error) :=
  now ← time_Now;
  let r := bytes_of_string (time_Format now) in
  minio.PutObject ctx (bucket gs) (objLockName gs key) r.

Definition Delete (gs : S3Storage) (ctx : Context) (key : string) : M (option error) :=
  minio.RemoveObject ctx (bucket gs) (objName gs key).

(** One turn of the [for] loop of [Lock]: [Some err] when the turn ends in
    [return err], [None] when the loop goes round again. *)
Definition Lock_turn (gs : S3Storage) (ctx : Context) (key : string)
    (startedAt : Time) (lockFile : string) : M (option (option error)) :=
  r ← minio.GetObject ctx (bucket gs) lockFile;
  match r with
  | Fail err =>
      if isNotFound err then Some <$> putLockFile gs ctx key
      else mret (Some (Some (wrapError "acquiring lock failed" err)))
  | Ok obj =>
      r ← minio.ReadAll obj;
      match r with
      | Fail err =>
          if isNotFound err then Some <$> putLockFile gs ctx key
          else mret (Some (Some (wrapError "reading lock file" err)))
      | Ok buf =>
          match time_Parse (string_of_bytes buf) with
          | None =>
              (* Lock file does not make sense, overwrite. *)
              Some <$> putLockFile gs ctx key
          | Some lockedAt =>
              w ← get_world;
              if After (Add startedAt (LockTimeout w)) lockedAt then
                (* Existing lock file expired, overwrite. *)
                Some <$> putLockFile gs ctx key
              else if After (Add startedAt (LockExpiration w)) lockedAt then
                (* Has been locked for too long. There is a problem *)
                log_Printf
                  "[INFO][S3Storage] Lock for '%s' is stale (locked at: %s); removing then retrying: %s"
                  [LStr key; LTime lockedAt; LStr (objLockName gs key)];;
                err ← Delete gs ctx lockFile;
                match err with
                | Some e =>
                    if isOtherResponse e
                    then mret (Some (Some (wrapError "unable to delete stale lockfile; deadlocked" e)))
                    else Some <$> putLockFile gs ctx key
                | None =>
                    (* Existing lock file is stale. Replace *)
                    Some <$> putLockFile gs ctx key
                end
              else
                (* lockfile exists and is not stale; just wait a moment and
                   try again, or return if context cancelled *)
                done ← select_After_or_Done ctx (LockPollInterval w);
                if done : bool then Some <$> ctx_Err ctx
                else mret None
          end
      end
  end.

(** The loop, for at most [fuel] turns. [Some err]: the call returned
    [err] within these turns; [None]: after them it is still in the loop,
    and the world is what it has done so far. *)
Fixpoint Lock_loop (fuel : nat) (gs : S3Storage) (ctx : Context) (key : string)
    (startedAt : Time) (lockFile : string) : M (option (option error)) := λ w,
  match fuel with
  | O => (None, w)
  | S fuel' =>
      match Lock_turn gs ctx key startedAt lockFile w with
      | (Some err, w') => (Some err, w')
      | (None, w') => Lock_loop fuel' gs ctx key startedAt lockFile w'
      end
  end.

Definition Lock (fuel : nat) (gs : S3Storage) (ctx : Context) (key : string)
    : M (option (option error)) :=
  startedAt ← time_Now;
  let lockFile := objLockName gs key in
  Lock_loop fuel gs ctx key startedAt lockFile.

Definition Unlock (gs : S3Storage) (ctx : Context) (key : string) : M (option error) :=
  minio.RemoveObject ctx (bucket gs) (objLockName gs key).

Definition Store (gs : S3Storage) (ctx : Context) (key : string) (value : bytes)
    : M (option error) :=
  r ← ByteReader (iowrap gs) value;
  minio.PutObject ctx (bucket gs) (objName gs key) r.

Definition Load (gs : S3Storage) (ctx : Context) (key : string) : M (result bytes) :=
  r ← minio.GetObject ctx (bucket gs) (objName gs key);
  match r with
  | Fail err =>
      if isNotFound err then mret (Fail ErrNotExist) else mret (Fail err)
  | Ok r =>
      raw ← minio.ReadAll r;
      match (match raw with Ok stream => WrapReader (iowrap gs) stream | Fail e => Fail e end) with
      | Fail err =>
          if isNotFound err then mret (Fail ErrNotExist) else mret (Fail err)
      | Ok buf => mret (Ok buf)
      end
  end.

Definition Exists (gs : S3Storage) (ctx : Context) (key : string) : M bool :=
  r ← minio.StatObject ctx (bucket gs) (objName gs key);
  match r with
  | Fail _ => mret false
  | Ok _ => mret true
  end.

Definition List (gs : S3Storage) (ctx : Context) (prefix : string) (recursive : bool)
    : M (list string * option error) :=
  objs ← minio.ListObjects ctx (bucket gs) (objName gs "") true;
  mret (minio.Key <$> objs, None).

Definition Stat (gs : S3Storage) (ctx : Context) (key : string)
    : M (certmagic.KeyInfo * option error) :=
  let ki := certmagic.zero in
  r ← minio.StatObject ctx (bucket gs) (objName gs key);
  match r with
  | Fail err =>
      if isNotFound err then mret (ki, Some ErrNotExist) else mret (ki, Some err)
  | Ok oi =>
      mret ({| certmagic.Key := key; certmagic.Size := minio.Size oi;
               certmagic.Modified := minio.LastModified oi;
               certmagic.IsTerminal := true |}, None)
  end.

End Storage.

(** ** The earlier revision of the storage

    [generic-s3.go] holds an earlier state of the same methods, without the
    mapping of missing objects to [fs.ErrNotExist] and with a [Lock] that
    sleeps and gives up by itself. Its options have no [Insecure] field (the
    client is always secure); everything else is shared with the above. *)

Module Legacy.
Section Storage.
Context `{TimeLayout} `{SecretBox}.
Variable endpoint_error : string → option error.

(** [ioutil.ReadAll(obj)] where [obj] is what [GetObject] returned next to
    its error: the object, or [nil] when there was an error. Reading the
    [nil] object is refused by the client without a request. *)
Definition ReadAll (r : result minio.Object) : M (result bytes) :=
  match r with
  | Ok obj => minio.ReadAll obj
  | Fail _ => mret (Fail (ErrorResponse StatusBadRequest "InvalidArgument"))
  end.

Definition NewS3Storage (opts : S3Opts) : M (result S3Storage) :=
  let withClient (io : IO) : M (result S3Storage) :=
    match minio_New endpoint_error (Endpoint opts)
                    (AccessKeyID opts, SecretAccessKey opts) true with
    | Fail err => mret (Fail err)
    | Ok client =>
        let gs3 := {| prefix := ObjPrefix opts; bucket := Bucket opts;
                      s3client := client; iowrap := io |} in
        now ← time_Now;
        let ctx := WithTimeout Background now (5 * Second) in
        r ← minio.BucketExists ctx (Bucket opts);
        match r with
        | Fail err => mret (Fail err)
        | Ok false => mret (Fail (errorString ("S3 bucket " +:+ Bucket opts +:+ " does not exist")))
        | Ok true => mret (Ok gs3)
        end
    end in
  if bool_decide (length (EncryptionKey opts) = 0%nat) then
    log_Printf "Clear text certificate storage active" [];;
    withClient CleartextIO
  else if bool_decide (length (EncryptionKey opts) ≠ 32%nat) then
    mret (Fail (errorString "encryption key must have exactly 32 bytes"))
  else
    log_Printf "Encrypted certificate storage active" [];;
    withClient (SecretBoxIO (EncryptionKey opts)).

Definition putLockFile (gs : S3Storage) (key : string) : M (option error) :=
  now ← time_Now;
  let r := bytes_of_string (time_Format now) in
  minio.PutObject Background (bucket gs) (objLockName gs key) r.

Definition Lock_turn (gs : S3Storage) (ctx : Context) (key : string)
    (startedAt : Time) : M (option (option error)) :=
  r ← minio.GetObject ctx (bucket gs) (objLockName gs key);
  match r with
  | Ok _ => (* err == nil *) Some <$> putLockFile gs key
  | Fail _ =>
      r ← ReadAll r;
      match r with
      | Fail _ =>
          (* Retry *)
          mret None
      | Ok buf =>
          match time_Parse (string_of_bytes buf) with
          | None =>
              (* Lock file does not make sense, overwrite. *)
              Some <$> putLockFile gs key
          | Some lt =>
              w ← get_world;
              now ← time_Now;
              if Before (Add lt (LockTimeout w)) now then
                (* Existing lock file expired, overwrite. *)
                Some <$> putLockFile gs key
              else
                now ← time_Now;
                if Before (Add startedAt (LockTimeout w)) now
                then mret (Some (Some (errorString "acquiring lock failed")))
                else time_Sleep (LockPollInterval w);; mret None
          end
      end
  end.

Fixpoint Lock_loop (fuel : nat) (gs : S3Storage) (ctx : Context) (key : string)
    (startedAt : Time) : M (option (option error)) := λ w,
  match fuel with
  | O => (None, w)
  | S fuel' =>
      match Lock_turn gs ctx key startedAt w with
      | (Some err, w') => (Some err, w')
      | (None, w') => Lock_loop fuel' gs ctx key startedAt w'
      end
  end.

Definition Lock (fuel : nat) (gs : S3Storage) (ctx : Context) (key : string)
    : M (option (option error)) :=
  log_Printf "Better S3: Locking for %s\n" [LStr key];;
  startedAt ← time_Now;
  Lock_loop fuel gs ctx key startedAt.

Definition Load (gs : S3Storage) (ctx : Context) (key : string) : M (result bytes) :=
  log_Printf "Better S3: Loading for %s\n" [LStr key];;
  r ← minio.GetObject ctx (bucket gs) (objName gs key);
  match r with
  | Fail err => mret (Fail err)
  | Ok r =>
      raw ← minio.ReadAll r;
      match (match raw with Ok stream => WrapReader (iowrap gs) stream | Fail e => Fail e end) with
      | Fail err => mret (Fail err)
      | Ok buf => mret (Ok buf)
      end
  end.

Definition Delete (gs : S3Storage) (ctx : Context) (key : string) : M (option error) :=
  log_Printf "Better S3: Deleting for %s\n" [LStr key];;
  minio.RemoveObject ctx (bucket gs) (objName gs key).

Definition List (gs : S3Storage) (ctx : Context) (prefix : string) (recursive : bool)
    : M (list string * option error) :=
  log_Printf "Better S3: Deleting for %s\n" [LStr prefix];;
  objs ← minio.ListObjects ctx (bucket gs) prefix recursive;
  mret (minio.Key <$> objs, None).

Definition Unlock (gs : S3Storage) (ctx : Context) (key : string) : M (option error) :=
  log_Printf "Better S3: Unlocking for %s\n" [LStr key];;
  minio.RemoveObject ctx (bucket gs) (objLockName gs key).

Definition Store (gs : S3Storage) (ctx : Context) (key : string) (value : bytes)
    : M (option error) :=
  log_Printf "Better S3: Storing for %s\n" [LStr key];;
  r ← ByteReader (iowrap gs) value;
  minio.PutObject ctx (bucket gs) (objName gs key) r.

Definition Exists (gs : S3Storage) (ctx : Context) (key : string) : M bool :=
  log_Printf "Better S3: Exists for %s\n" [LStr key];;
  r ← minio.StatObject ctx (bucket gs) (objName gs key);
  match r with
  | Fail _ => mret false
  | Ok _ => mret true
  end.

Definition Stat (gs : S3Storage) (ctx : Context) (key : string)
    : M (certmagic.KeyInfo * option error) :=
  log_Printf "Better S3: Stat for %s\n" [LStr key];;
  let ki := certmagic.zero in
  r ← minio.StatObject ctx (bucket gs) (objName gs key);
  match r with
  | Fail err => mret (ki, Some err)
  | Ok oi =>
      mret ({| certmagic.Key := key; certmagic.Size := minio.Size oi;
               certmagic.Modified := minio.LastModified oi;
               certmagic.IsTerminal := true |}, None)
  end.

End Storage.
End Legacy.

(** ** A layout to run examples with: RFC 3339 in UTC

    [YYYY-MM-DDThh:mm:ssZ], the form [time.RFC3339] gives to an instant in
    UTC. Parsing accepts that form only (the Go parser also accepts numeric
    zone offsets and fractional seconds). *)

Module RFC3339.

Definition digit (n : Z) : ascii := ascii_of_nat (48 + Z.to_nat (n mod 10)).

Definition pad2 (n : Z) : string := String (digit (n / 10)) (String (digit n) "").

Definition pad4 (n : Z) : string := pad2 (n / 100) +:+ pad2 n.

(** Days since 1970-01-01 to the civil date, and back. *)
Definition civil_from_days (days : Z) : Z * Z * Z :=
  let z := days + 719468 in
  let era := z / 146097 in
  let doe := z - era * 146097 in
  let yoe := (doe - doe / 1460 + doe / 36524 - doe / 146096) / 365 in
  let doy := doe - (365 * yoe + yoe / 4 - yoe / 100) in
  let mp := (5 * doy + 2) / 153 in
  let d := doy - (153 * mp + 2) / 5 + 1 in
  let m := if bool_decide (mp < 10) then mp + 3 else mp - 9 in
  let y := yoe + era * 400 in
  (if bool_decide (m <= 2) then y + 1 else y, m, d).

Definition days_from_civil (y m d : Z) : Z :=
  let y := if bool_decide (m <= 2) then y - 1 else y in
  let era := y / 400 in
  let yoe := y - era * 400 in
  let mp := if bool_decide (2 < m) then m - 3 else m + 9 in
  let doy := (153 * mp + 2) / 5 + d - 1 in
  let doe := yoe * 365 + yoe / 4 - yoe / 100 + doy in
  era * 146097 + doe - 719468.

Definition Format (t : Time) : string :=
  let secs := t / Second in
  let '(y, m, d) := civil_from_days (secs / 86400) in
  let rem := secs mod 86400 in
  pad4 y +:+ "-" +:+ pad2 m +:+ "-" +:+ pad2 d +:+ "T"
    +:+ pad2 (rem / 3600) +:+ ":" +:+ pad2 (rem mod 3600 / 60) +:+ ":" +:+ pad2 (rem mod 60)
    +:+ "Z".

Definition digit_value (c : ascii) : option Z :=
  let n := Z.of_nat (nat_of_ascii c) in
  if bool_decide (48 <= n <= 57) then Some (n - 48) else None.

(** The number written by the [len] digits of [l] from position [pos]. *)
Fixpoint number (l : list ascii) (pos len : nat) (acc : Z) : option Z :=
  match len with
  | O => Some acc
  | S len' =>
      match l !! pos with
      | Some c =>
          match digit_value c with
          | Some v => number l (S pos) len' (10 * acc + v)
          | None => None
          end
      | None => None
      end
  end.

Definition is_leap (y : Z) : bool :=
  bool_decide (y mod 4 = 0) && (bool_decide (y mod 100 ≠ 0) || bool_decide (y mod 400 = 0)).

Definition days_in (y m : Z) : Z :=
  if bool_decide (m = 2) then (if is_leap y then 29 else 28)
  else if bool_decide (m = 4 ∨ m = 6 ∨ m = 9 ∨ m = 11) then 30 else 31.

Definition sep (l : list ascii) (pos : nat) (c : ascii) : bool :=
  bool_decide (l !! pos = Some c).

Definition Parse (s : string) : option Time :=
  let l := list_ascii_of_string s in
  if bool_decide (length l = 20%nat)
     && sep l 4 "-" && sep l 7 "-" && sep l 10 "T"
     && sep l 13 ":" && sep l 16 ":" && sep l 19 "Z"
  then
    y ← number l 0 4 0; m ← number l 5 2 0; d ← number l 8 2 0;
    hh ← number l 11 2 0; mm ← number l 14 2 0; ss ← number l 17 2 0;
    if bool_decide (1 <= m <= 12) && bool_decide (1 <= d <= days_in y m)
       && bool_decide (hh < 24) && bool_decide (mm < 60) && bool_decide (ss < 60)
    then Some ((days_from_civil y m d * 86400 + hh * 3600 + mm * 60 + ss) * Second)
    else None
  else None.

#[export] Instance layout : TimeLayout :=
  {| time_Format := Format; time_Parse := Parse |}.

End RFC3339.

(** ** A cipher to run examples with

    A stand-in for NaCl's secretbox that has its shape: a 16-byte tag
    followed by the message XORed with a pad made from key and nonce.
    It is here to have a [SecretBox] to compute with, not for its strength. *)

Module XorBox.

Definition axor (a b : ascii) : ascii :=
  match a, b with
  | Ascii a0 a1 a2 a3 a4 a5 a6 a7, Ascii b0 b1 b2 b3 b4 b5 b6 b7 =>
      Ascii (xorb a0 b0) (xorb a1 b1) (xorb a2 b2) (xorb a3 b3)
            (xorb a4 b4) (xorb a5 b5) (xorb a6 b6) (xorb a7 b7)
  end.

Definition bxor (a b : byte) : byte :=
  byte_of_ascii (axor (ascii_of_byte a) (ascii_of_byte b)).

Definition pad (key nonce : bytes) (i : nat) : byte :=
  bxor (nth (i mod KeySize) key x00) (nth (i mod NonceSize) nonce x00).

Fixpoint stream (key nonce : bytes) (i : nat) (msg : bytes) : bytes :=
  match msg with
  | [] => []
  | b :: msg' => bxor b (pad key nonce i) :: stream key nonce (S i) msg'
  end.

Definition Overhead : nat := 16.

Definition tag (key nonce msg : bytes) : bytes :=
  (λ j, foldr bxor (nth j key x00) (nonce ++ msg)) <$> seq 0 Overhead.

Definition Seal (key nonce msg : bytes) : bytes :=
  tag key nonce msg ++ stream key nonce 0 msg.

Definition Open (key nonce box : bytes) : option bytes :=
  if bool_decide (length box < Overhead)%nat then None
  else
    let msg := stream key nonce 0 (drop Overhead box) in
    if bool_decide (take Overhead box = tag key nonce msg) then Some msg else None.

End XorBox.

(** ** Worlds to run examples in *)

Module Fixture.
Export RFC3339.

(** An endpoint check that only refuses the empty endpoint. *)
Definition endpoint_error (endpoint : string) : option error :=
  if bool_decide (endpoint = "") then Some (errorString "Endpoint: does not follow ip address or domain name standards.")
  else None.

Definition blob (s : string) (t : Time) : Blob :=
  {| content := bytes_of_string s; modified := t |}.

(** A world with one bucket ["certs"] holding [objs], the clock at [now],
    a network that serves every request at once unless [rs] says otherwise,
    and the package variables at their defaults. *)
Definition world (objs : gmap string Blob) (now : Time) (rs : list Reply) : World :=
  {| buckets := {[ "certs" := objs ]};
     clock := now;
     replies := rs;
     entropy := λ i, default x00 (Byte.of_nat (i mod 256));
     drawn := 0;
     trace := [];
     LockExpiration := default_LockExpiration;
     LockPollInterval := default_LockPollInterval;
     LockTimeout := default_LockTimeout |}.

Definition client : Client :=
  {| Endpoint_of := "s3.example.net"; Creds := ("id", "secret"); Secure := true |}.

(** The storage over bucket ["certs"] with object prefix ["acme"]. *)
Definition storage (io : IO) : S3Storage :=
  {| prefix := "acme"; bucket := "certs"; s3client := client; iowrap := io |}.

(** 2024-05-01T12:00:00Z *)
Definition noon : Time := 1714564800 * Second.

Definition fails (e : error) : Reply := {| latency := 0; failure := Some e |}.

(** A context with a deadline. *)
Definition until (t : Time) : Context := {| done_at := Some t; cause := CauseDeadline |}.

(** The bucket holding nothing but a lock record for ["example.com"]
    with the given text. *)
Definition locked (stamp : string) : gmap string Blob :=
  {[ "acme/example.com.lock" := blob stamp noon ]}.

(** The same, next to the lock record of the other key ["acme/example.com"],
    taken ten seconds before noon. *)
Definition locked_twice (stamp : string) : gmap string Blob :=
  <[ "acme/acme/example.com.lock" := blob "2024-05-01T11:59:50Z" (noon - 10 * Second) ]>
    (locked stamp).

(** Two certificates of two sites. *)
Definition two_sites : gmap string Blob :=
  {[ "acme/alpha/x.crt" := blob "certificate of alpha" noon;
     "acme/beta/y.crt" := blob "certificate of beta" noon ]}.

Definition zero_key : bytes := replicate 32 x00.

Definition payload : bytes := bytes_of_string "-----BEGIN CERTIFICATE-----".

End Fixture.

(** ** Reading the world *)

(** The bytes stored under [name] in [bucket]. *)
Definition stored (bucket name : string) (w : World) : option bytes :=
  objs ← buckets w !! bucket; b ← objs !! name; Some (content b).

(** The lock record of [key], as text. *)
Definition lock_record (gs : S3Storage) (key : string) (w : World) : option string :=
  string_of_bytes <$> stored (bucket gs) (objLockName gs key) w.

Definition is_read (req : Request) : bool :=
  match req with
  | ReqGetObject _ _ | ReqReadAll _ _ => true
  | _ => false
  end.

Definition is_write (req : Request) : bool :=
  match req with
  | ReqPutObject _ _ _ => true
  | _ => false
  end.

(** The events that change a bucket. *)
Definition mutation (ev : Event) : bool :=
  match ev with
  | EvRequest (ReqPutObject _ _ _) _ | EvRequest (ReqRemoveObject _ _) _ => true
  | _ => false
  end.

Definition is_log (ev : Event) : bool :=
  match ev with
  | EvLog _ _ => true
  | _ => false
  end.

Definition is_timer (ev : Event) : bool :=
  match ev with
  | EvTimer _ => true
  | _ => false
  end.

(** The value of a result, if it is one. *)
Definition value_of {A} (r : result A) : option A :=
  match r with Ok a => Some a | Fail _ => None end.

(** The error [NewS3Storage] has for a key of a wrong length. *)
Definition key_error : error := errorString "encryption key must have exactly 32 bytes".

(** A wrapper as [NewS3Storage] builds them. *)
Definition valid_wrapper (io : IO) : Prop :=
  match io with
  | CleartextIO => True
  | SecretBoxIO key => length key = KeySize
  end.


(** The failures on which [Lock] returns at once: a read that fails with
    anything but not-found, a write that fails, and a removal that fails
    with a response of the service other than not-found. *)
Definition ends_call (req : Request) (e : error) : bool :=
  match req with
  | ReqGetObject _ _ | ReqReadAll _ _ => negb (isNotFound e)
  | ReqPutObject _ _ _ => true
  | ReqRemoveObject _ _ => isOtherResponse e
  | _ => false
  end.

(** The events of a turn of [Lock] that goes round: the two reads, served,
    and the timer. *)
Definition poll_events (gs : S3Storage) (lockFile : string) (poll : Duration) : list Event :=
  [EvTimer poll; EvRequest (ReqReadAll (bucket gs) lockFile) None;
   EvRequest (ReqGetObject (bucket gs) lockFile) None].

(** * Properties *)

(** ** The example cipher opens what it sealed *)

Module XorBoxLaws.
Import XorBox.

Lemma axor_involutive a b : axor (axor a b) b = a.
Proof.
  destruct a, b; simpl.
  by rewrite !xorb_assoc, !xorb_nilpotent, !xorb_false_r.
Qed.

Lemma bxor_involutive a b : bxor (bxor a b) b = a.
Proof.
  unfold bxor.
  by rewrite ascii_of_byte_of_ascii, axor_involutive, byte_of_ascii_of_byte.
Qed.

Lemma stream_involutive key nonce msg i :
  stream key nonce i (stream key nonce i msg) = msg.
Proof.
  revert i; induction msg as [|b msg IH]; intros i; simpl; [done|].
  by rewrite bxor_involutive, IH.
Qed.

Lemma length_tag key nonce msg : length (tag key nonce msg) = Overhead.
Proof. unfold tag. by rewrite length_fmap, length_seq. Qed.

Lemma Open_Seal key nonce msg : Open key nonce (Seal key nonce msg) = Some msg.
Proof.
  unfold Open, Seal.
  rewrite bool_decide_eq_false_2
    by (rewrite length_app, length_tag; lia).
  replace Overhead with (length (tag key nonce msg)) by apply length_tag.
  rewrite drop_app_length, take_app_length.
  rewrite stream_involutive.
  by rewrite bool_decide_eq_true_2.
Qed.

(** The example cipher is a [SecretBox]. *)
#[export] Instance box : SecretBox :=
  {| secretbox_Seal := Seal; secretbox_Open := Open;
     secretbox_Open_Seal := λ key nonce msg _ _, Open_Seal key nonce msg |}.

End XorBoxLaws.

(** ** Running the monad *)

Ltac run :=
  unfold Lock_turn, putLockFile, Delete, Unlock, Store, Load, Exists, List, Stat,
    Legacy.Lock_turn, Legacy.putLockFile, Legacy.ReadAll, Legacy.Load, Legacy.Delete,
    Legacy.List, Legacy.Stat,
    ByteReader, rand_Read,
    minio.GetObject, minio.ReadAll, minio.PutObject, minio.RemoveObject,
    minio.StatObject, minio.ListObjects, minio.BucketExists, minio.call,
    select_After_or_Done, ctx_Err, time_Sleep, log_Printf, modify, time_Now, get_world,
    mbind, M_bind, fmap, M_fmap, mret, M_ret in *;
  simpl in *.

Ltac cases := repeat (case_match; simplify_eq/=).

(** The events added in front of a trace. *)
Ltac new_events :=
  match goal with
  | |- ∃ new, ?l = new ++ ?t =>
      first [ by exists (take 1 l) | by exists (take 2 l) | by exists (take 3 l)
            | by exists (take 4 l) | by exists (take 5 l) | by exists (take 6 l) ]
  end.

(** The events added in front of a trace, put in place of [new]. *)
Ltac new_is Ht new :=
  match type of Ht with
  | ?l = new ++ ?t =>
      let Hl := fresh in
      first
        [ assert (Hl : new = take 1 l) by (apply (app_inv_tail t); by rewrite <- Ht)
        | assert (Hl : new = take 2 l) by (apply (app_inv_tail t); by rewrite <- Ht)
        | assert (Hl : new = take 3 l) by (apply (app_inv_tail t); by rewrite <- Ht)
        | assert (Hl : new = take 4 l) by (apply (app_inv_tail t); by rewrite <- Ht)
        | assert (Hl : new = take 5 l) by (apply (app_inv_tail t); by rewrite <- Ht) ];
      simpl in Hl; subst new
  end.

Ltac decided :=
  repeat match goal with
         | H : bool_decide _ = true |- _ => apply bool_decide_eq_true in H
         | H : bool_decide _ = false |- _ => apply bool_decide_eq_false in H
         end.

Lemma length_append (s1 s2 : string) :
  String.length (s1 +:+ s2) = (String.length s1 + String.length s2)%nat.
Proof. induction s1 as [|a s1 IH]; simpl; [done|]. by rewrite <- IH. Qed.

Lemma errors_Is_refl e : errors_Is e e = true.
Proof. destruct e; simpl; try done; by case_bool_decide. Qed.

Lemma errors_Is_wrap msg err e : errors_Is err e = true → errors_Is (wrapError msg err) e = true.
Proof. intros He. simpl. by case_bool_decide. Qed.


(** ** One turn of the loop of [Lock] *)

Section Turn.
Context `{TimeLayout} `{SecretBox}.
Variables (gs : S3Storage) (ctx : Context) (key : string).
Variables (startedAt : Time) (lockFile : string).

(** The loop goes round only after reading the record without error and
    waiting the poll interval out, with the context still open when the
    timer fires. Nothing was written. *)
Lemma Lock_turn_round w w1 :
  Lock_turn gs ctx key startedAt lockFile w = (None, w1) →
  trace w1 = EvTimer (LockPollInterval w)
               :: EvRequest (ReqReadAll (bucket gs) lockFile) None
               :: EvRequest (ReqGetObject (bucket gs) lockFile) None :: trace w
  ∧ buckets w1 = buckets w
  ∧ LockPollInterval w1 = LockPollInterval w
  ∧ replies w1 = tl (tl (replies w))
  ∧ clock w1 = clock w + Z.of_N (latency (hd served (replies w)))
               + Z.of_N (latency (hd served (tl (replies w))))
               + Z.max 0 (LockPollInterval w)
  ∧ (∀ d, done_at ctx = Some d → clock w1 < d).
Proof.
  intros Hr. run. cases; decided; repeat split; auto; intros; simplify_eq; lia.
Qed.

(** A turn that meets a failing read or write ends the call there, with
    an error that carries the failure. *)
Lemma Lock_turn_error w err w1 new req e :
  Lock_turn gs ctx key startedAt lockFile w = (Some err, w1) →
  trace w1 = new ++ trace w →
  EvRequest req (Some e) ∈ new →
  is_read req || is_write req = true →
  (is_read req = true → isNotFound e = false) →
  head new = Some (EvRequest req (Some e))
  ∧ ∃ err', err = Some err' ∧ errors_Is err' e = true.
Proof.
  intros Hr Ht Hin Hrw Hnf. run.
  cases;
    match type of Ht with
    | ?l = new ++ ?t =>
        let Hl := fresh in
        first
          [ assert (Hl : new = take 1 l) by (apply (app_inv_tail t); by rewrite <- Ht)
          | assert (Hl : new = take 2 l) by (apply (app_inv_tail t); by rewrite <- Ht)
          | assert (Hl : new = take 3 l) by (apply (app_inv_tail t); by rewrite <- Ht)
          | assert (Hl : new = take 4 l) by (apply (app_inv_tail t); by rewrite <- Ht)
          | assert (Hl : new = take 5 l) by (apply (app_inv_tail t); by rewrite <- Ht) ];
        simpl in Hl; subst new
    end;
    repeat (apply elem_of_cons in Hin as [Hin|Hin]; simplify_eq/=);
    try (by apply elem_of_nil in Hin);
    try (specialize (Hnf eq_refl); congruence);
    (split; [done|]); eexists; (split; [done|]);
    auto using errors_Is_refl, errors_Is_wrap.
Qed.



End Turn.

(** ** The loop of [Lock] *)

Section Loop.
Context `{TimeLayout} `{SecretBox}.
Variables (gs : S3Storage) (ctx : Context) (key : string).
Variables (startedAt : Time) (lockFile : string).

(** However many turns are run, a failing read or write is the last thing
    that happened, and the call has returned an error that carries it. *)
Lemma Lock_loop_error fuel w r w' req e :
  Lock_loop fuel gs ctx key startedAt lockFile w = (r, w') →
  ∃ new, trace w' = new ++ trace w
    ∧ (EvRequest req (Some e) ∈ new →
       is_read req || is_write req = true →
       (is_read req = true → isNotFound e = false) →
       head new = Some (EvRequest req (Some e))
       ∧ ∃ err, r = Some (Some err) ∧ errors_Is err e = true).
Proof.
  revert w. induction fuel as [|fuel IH]; intros w Hr; simpl in Hr.
  - simplify_eq. exists []. split; [done|]. intros Hin. by apply elem_of_nil in Hin.
  - destruct (Lock_turn gs ctx key startedAt lockFile w) as [[err|] w1] eqn:Hturn.
    + simplify_eq.
      assert (∃ new, trace w' = new ++ trace w) as [new Hnew].
      { clear -Hturn. run. cases; new_events. }
      exists new. split; [done|]. intros Hin Hrw Hnf.
      destruct (Lock_turn_error _ _ _ _ _ _ _ _ _ _ _ Hturn Hnew Hin Hrw Hnf)
        as (Hhd & err' & -> & Hcarry).
      eauto.
    + apply Lock_turn_round in Hturn as (Ht1 & _).
      destruct (IH _ Hr) as (new & Hnew & Hprop).
      exists (new ++ [EvTimer (LockPollInterval w);
                      EvRequest (ReqReadAll (bucket gs) lockFile) None;
                      EvRequest (ReqGetObject (bucket gs) lockFile) None]).
      split; [by rewrite Hnew, Ht1, <- app_assoc|].
      intros Hin Hrw Hnf. apply elem_of_app in Hin as [Hin|Hin].
      * destruct (Hprop Hin Hrw Hnf) as (Hhd & Herr). split; [|done].
        destruct new; simplify_eq/=; done.
      * repeat (apply elem_of_cons in Hin as [Hin|Hin]; simplify_eq/=).
        by apply elem_of_nil in Hin.
Qed.



End Loop.

(** ** [Lock] *)

Section Acquire.
Context `{TimeLayout} `{SecretBox}.
Variables (gs : S3Storage) (ctx : Context) (key : string).

Lemma Lock_unfold fuel w :
  Lock fuel gs ctx key w = Lock_loop fuel gs ctx key (clock w) (objLockName gs key) w.
Proof. done. Qed.

(** Property X22. The rule [Lock] really applies to a record that it could read and
    parse: unless the record is dated [LockTimeout] or more after the
    start of the call, it is overwritten at the first turn, whatever its
    age, without a wait, a removal or a log line. *)
Lemma Lock_overwrites_past_record fuel w buf lockedAt :
  failure (hd served (replies w)) = None →
  failure (hd served (tl (replies w))) = None →
  stored (bucket gs) (objLockName gs key) w = Some buf →
  time_Parse (string_of_bytes buf) = Some lockedAt →
  lockedAt < clock w + LockTimeout w →
  ∃ data err w',
    Lock (S fuel) gs ctx key w = (Some err, w')
    ∧ trace w' = [EvRequest (ReqPutObject (bucket gs) (objLockName gs key) data) err;
                  EvRequest (ReqReadAll (bucket gs) (objLockName gs key)) None;
                  EvRequest (ReqGetObject (bucket gs) (objLockName gs key)) None]
                 ++ trace w.
Proof.
  intros Hr1 Hr2 Hst Hparse Hlt. rewrite Lock_unfold. simpl.
  unfold stored in Hst.
  destruct (buckets w !! bucket gs) as [objs|] eqn:Hb; [|done]. simpl in Hst.
  destruct (objs !! objLockName gs key) as [b|] eqn:Ho; [|done]. simplify_eq/=.
  run. unfold minio.lookup_object, After, Add. simpl.
  rewrite Hr1. simpl. rewrite Hr2. simpl. rewrite Hb, Ho. simpl.
  rewrite Hparse. rewrite bool_decide_eq_true_2 by done.
  cases; eauto.
Qed.

(** Property X23. When there is no record, the first turn writes one that holds the
    time at which the write began, and the call returns what the write
    returned: success when the write is served. *)
Lemma Lock_absent_record fuel w objs :
  failure (hd served (replies w)) = None →
  failure (hd served (tl (replies w))) = None →
  failure (hd served (tl (tl (replies w)))) = None →
  buckets w !! bucket gs = Some objs →
  objs !! objLockName gs key = None →
  let now := clock w + Z.of_N (latency (hd served (replies w)))
                     + Z.of_N (latency (hd served (tl (replies w)))) in
  ∃ w', Lock (S fuel) gs ctx key w = (Some None, w')
    ∧ lock_record gs key w' = Some (time_Format now)
    ∧ trace w' = [EvRequest (ReqPutObject (bucket gs) (objLockName gs key)
                               (bytes_of_string (time_Format now))) None;
                  EvRequest (ReqReadAll (bucket gs) (objLockName gs key))
                            (Some minio.NoSuchKey);
                  EvRequest (ReqGetObject (bucket gs) (objLockName gs key)) None]
                 ++ trace w.
Proof.
  intros Hr1 Hr2 Hr3 Hb Ho now. rewrite Lock_unfold. simpl.
  run. unfold minio.lookup_object. simpl.
  rewrite Hr1. simpl. rewrite Hr2. simpl. rewrite Hb, Ho. simpl.
  rewrite Hr3. simpl. rewrite Hb. simpl.
  eexists. split; [done|]. simpl.
  unfold lock_record, stored, bytes_of_string, string_of_bytes. simpl.
  rewrite lookup_insert_eq. simpl. rewrite lookup_insert_eq. simpl.
  by rewrite string_of_list_byte_of_string.
Qed.

(** Property X24. Whatever [Lock] removes, it is not the lock record: the name it hands
    to [Delete] is the record's object name, and [Delete] puts the object
    prefix in front of it once more. *)
Lemma Lock_removes_other_object fuel w r w' new b n err :
  Lock fuel gs ctx key w = (r, w') →
  trace w' = new ++ trace w →
  EvRequest (ReqRemoveObject b n) err ∈ new →
  n = objName gs (objLockName gs key) ∧ n ≠ objLockName gs key.
Proof.
  intros Hlock Hnew Hin.
  assert (n = objName gs (objLockName gs key)) as ->.
  { rewrite Lock_unfold in Hlock.
    remember (clock w) as startedAt eqn:Hs. clear Hs.
    revert startedAt w new Hlock Hnew Hin.
    induction fuel as [|fuel IH]; intros startedAt w0 new Hlock Hnew Hin; simpl in Hlock.
    - simplify_eq. assert (new = []) as -> by (by apply (app_inv_tail (trace w'))).
      by apply elem_of_nil in Hin.
    - destruct (Lock_turn gs ctx key startedAt (objLockName gs key) w0)
        as [[err0|] w1] eqn:Hturn.
      + simplify_eq. clear IH. run.
        cases;
          match type of Hnew with
          | ?l = new ++ ?t =>
              let Hl := fresh in
              first
                [ assert (Hl : new = take 1 l) by (apply (app_inv_tail t); by rewrite <- Hnew)
                | assert (Hl : new = take 2 l) by (apply (app_inv_tail t); by rewrite <- Hnew)
                | assert (Hl : new = take 3 l) by (apply (app_inv_tail t); by rewrite <- Hnew)
                | assert (Hl : new = take 4 l) by (apply (app_inv_tail t); by rewrite <- Hnew)
                | assert (Hl : new = take 5 l) by (apply (app_inv_tail t); by rewrite <- Hnew) ];
              simpl in Hl; subst new
          end;
          repeat (apply elem_of_cons in Hin as [Hin|Hin]; simplify_eq/=);
          try (by apply elem_of_nil in Hin); done.
      + apply Lock_turn_round in Hturn as (Ht1 & _).
        destruct (Lock_loop_error gs ctx key startedAt (objLockName gs key)
                    _ _ _ _ (ReqGetObject "" "") Canceled Hlock) as (new1 & Hnew1 & _).
        assert (new = new1 ++ take 3 (trace w1)) as ->.
        { apply (app_inv_tail (trace w0)). rewrite <- Hnew, Hnew1, Ht1, <- app_assoc. done. }
        apply elem_of_app in Hin as [Hin|Hin].
        * by eapply IH.
        * rewrite Ht1 in Hin. simpl in Hin.
          repeat (apply elem_of_cons in Hin as [Hin|Hin]; simplify_eq/=).
          by apply elem_of_nil in Hin. }
  split; [done|]. unfold objName, objLockName.
  intros Heq. apply (f_equal String.length) in Heq.
  rewrite !length_append in Heq. simpl in Heq. lia.
Qed.

End Acquire.

(** ** [Load], [Delete], [Stat] and [Exists] on what is not there *)

Section Missing.
Context `{TimeLayout} `{SecretBox}.
Variables (gs : S3Storage) (ctx : Context) (key : string).

(** [Load] of a key without a stored object, the two requests served. *)
Lemma Load_missing w :
  failure (hd served (replies w)) = None →
  failure (hd served (tl (replies w))) = None →
  stored (bucket gs) (objName gs key) w = None →
  fst (Load gs ctx key w) = Fail ErrNotExist.
Proof.
  intros Hr1 Hr2 Hst. unfold stored in Hst. run. unfold minio.lookup_object. simpl.
  rewrite Hr1. simpl. rewrite Hr2. simpl.
  destruct (buckets w !! bucket gs) as [objs|]; simpl in *; [|done].
  by destruct (objs !! objName gs key).
Qed.

(** [Load] when the service itself answers not-found, at either request. *)
Lemma Load_not_found w e :
  isNotFound e = true →
  failure (hd served (replies w)) = Some e
  ∨ (failure (hd served (replies w)) = None
     ∧ failure (hd served (tl (replies w))) = Some e) →
  fst (Load gs ctx key w) = Fail ErrNotExist.
Proof.
  intros He [Hr1|[Hr1 Hr2]]; run; rewrite Hr1; simpl; [by rewrite He|].
  rewrite Hr2. simpl. by rewrite He.
Qed.

(** [Stat] of a key without a stored object, the request served. *)
Lemma Stat_missing w :
  failure (hd served (replies w)) = None →
  stored (bucket gs) (objName gs key) w = None →
  fst (Stat gs ctx key w) = (certmagic.zero, Some ErrNotExist).
Proof.
  intros Hr1 Hst. unfold stored in Hst. run. unfold minio.lookup_object. simpl.
  rewrite Hr1. simpl.
  destruct (buckets w !! bucket gs) as [objs|]; simpl in *; [|done].
  by destruct (objs !! objName gs key).
Qed.

Lemma Stat_not_found w e :
  isNotFound e = true →
  failure (hd served (replies w)) = Some e →
  fst (Stat gs ctx key w) = (certmagic.zero, Some ErrNotExist).
Proof. intros He Hr1. run. rewrite Hr1. simpl. by rewrite He. Qed.

(** [Delete] hands back what [RemoveObject] returned, as it is: nothing
    when the request is served, also for a key without a stored object;
    the error of the reply otherwise, a not-found response included. *)
Lemma Delete_served w objs :
  failure (hd served (replies w)) = None →
  buckets w !! bucket gs = Some objs →
  fst (Delete gs ctx key w) = None.
Proof. intros Hr1 Hb. run. rewrite Hr1. simpl. by rewrite Hb. Qed.

Lemma Delete_failed w e :
  failure (hd served (replies w)) = Some e →
  fst (Delete gs ctx key w) = Some e.
Proof. intros Hr1. run. by rewrite Hr1. Qed.

(** [Delete] never makes an [fs.ErrNotExist] of its own. *)
Lemma Delete_ErrNotExist w :
  fst (Delete gs ctx key w) = Some ErrNotExist →
  failure (hd served (replies w)) = Some ErrNotExist.
Proof. run. cases; by intros [= <-]. Qed.

(** Claim C10. [Exists] is [true] exactly when [StatObject] on the
    prefixed name returned no error, and the world it leaves is the one
    [StatObject] leaves. It is [false] for every error: for a reply that
    is a failure of any kind, as for an object that is not stored; the
    answer is the same in both cases. *)
Theorem Exists_iff_stat_succeeds w :
  Exists gs ctx key w
  = (match fst (minio.StatObject ctx (bucket gs) (objName gs key) w) with
     | Ok _ => true
     | Fail _ => false
     end,
     snd (minio.StatObject ctx (bucket gs) (objName gs key) w))
  ∧ (∀ l e, fst (Exists gs ctx key
                   (set_replies ({| latency := l; failure := Some e |} :: replies w) w))
            = false)
  ∧ match stored (bucket gs) (objName gs key) w with
    | None => fst (Exists gs ctx key w) = false
    | Some _ =>
        fst (Exists gs ctx key w)
        = match failure (hd served (replies w)) with None => true | Some _ => false end
    end.
Proof.
  split; [|split].
  - unfold Exists, mbind, M_bind.
    destruct (minio.StatObject ctx (bucket gs) (objName gs key) w) as [[oi|e] w1]; done.
  - intros l e. by run.
  - unfold stored. run. unfold minio.lookup_object. simpl.
    destruct (buckets w !! bucket gs) as [objs|] eqn:Hb; simpl.
    + destruct (objs !! objName gs key) eqn:Ho; simpl; cases; congruence.
    + cases; congruence.
Qed.

End Missing.

(** ** [List] *)

Lemma append_nil (r : string) : "" +:+ r = r.
Proof. reflexivity. Qed.

Lemma append_cons a (p r : string) : String a p +:+ r = String a (p +:+ r).
Proof. reflexivity. Qed.

Lemma strip_prefix_Some p s r : strip_prefix p s = Some r ↔ s = p +:+ r.
Proof.
  revert s. induction p as [|a p IH]; intros s; simpl.
  - rewrite append_nil. split; congruence.
  - rewrite append_cons. destruct s as [|b s]; [done|].
    destruct (Ascii.eqb_spec a b) as [->|Hne].
    + rewrite IH. split; [by intros ->|by intros [= ->]].
    + split; [done|]. intros [= ? ?]. done.
Qed.

Lemma HasPrefix_true s p : HasPrefix s p = true ↔ ∃ r, s = p +:+ r.
Proof.
  unfold HasPrefix. destruct (strip_prefix p s) as [r|] eqn:Hs.
  - apply strip_prefix_Some in Hs. split; eauto.
  - split; [done|]. intros [r Hr]. apply strip_prefix_Some in Hr. congruence.
Qed.

Lemma Key_info_of objs (l : list string) : minio.Key <$> (minio.info_of objs <$> l) = l.
Proof.
  induction l as [|k l IH]; [done|]. rewrite !fmap_cons, IH. f_equal.
  unfold minio.info_of. by destruct (objs !! k).
Qed.

(** A recursive listing shows the stored keys that begin with the prefix. *)
Lemma elem_of_listing_recursive objs p k :
  k ∈ minio.listing objs p true ↔ k ∈ dom objs ∧ HasPrefix k p = true.
Proof.
  unfold minio.listing. rewrite elem_of_elements, elem_of_list_to_set, list_elem_of_omap.
  unfold minio.list_entry, HasPrefix. split.
  - intros (k0 & Hk0 & Hentry). apply elem_of_elements in Hk0.
    destruct (strip_prefix p k0) eqn:Hs; simplify_eq. by rewrite Hs.
  - intros [Hk Hp]. exists k. rewrite elem_of_elements. split; [done|].
    by destruct (strip_prefix p k).
Qed.

Section Listing.
Context `{TimeLayout} `{SecretBox}.
Variables (gs : S3Storage) (ctx : Context).

(** [List] does not look at its arguments. *)
Lemma List_ignores_arguments p r p' r' w :
  List gs ctx p r w = List gs ctx p' r' w.
Proof. done. Qed.

(** Property X25. What [List] returns when its request is served: every stored key
    below the object prefix, whatever was asked for. *)
Lemma List_keys p r w objs k :
  failure (hd served (replies w)) = None →
  buckets w !! bucket gs = Some objs →
  k ∈ fst (fst (List gs ctx p r w))
  ↔ k ∈ dom objs ∧ HasPrefix k (objName gs "") = true.
Proof.
  intros Hr1 Hb. run. rewrite Hr1. simpl. rewrite Hb. simpl.
  rewrite Key_info_of. apply elem_of_listing_recursive.
Qed.

End Listing.

Section LegacyListing.
Context `{TimeLayout} `{SecretBox}.
Variables (gs : S3Storage) (ctx : Context).

(** The earlier [List] hands both arguments to the client, the prefix as
    it was given. *)
Lemma Legacy_List_passes_arguments p r w :
  Legacy.List gs ctx p r w
  = (let '(objs, w') :=
       minio.ListObjects ctx (bucket gs) p r
         (emit (EvLog "Better S3: Deleting for %s\n" [LStr p]) w) in
     ((minio.Key <$> objs, None), w')).
Proof. done. Qed.

End LegacyListing.

(** ** [NewS3Storage] *)

Section Construction.
Context `{TimeLayout} `{SecretBox}.
Variable endpoint_error : string → option error.
Variables (ctx : Context) (opts : S3Opts).

(** Claim C8. The wrapper is chosen from the length of the encryption
    key alone. No key: a storage that is built has the cleartext wrapper,
    and a failure to build it is not about the key. A key of a length
    other than 32: the key error is returned and the world is untouched,
    no request sent and nothing logged. A key of 32 bytes: a
    storage that is built has the secret-box wrapper over that key. *)
Theorem NewS3Storage_wrapper_selection w :
  let '(r, w') := NewS3Storage endpoint_error ctx opts w in
  if bool_decide (length (EncryptionKey opts) = 0%nat) then
    match r with
    | Ok gs => iowrap gs = CleartextIO
    | Fail e => e ≠ key_error
    end
  else if bool_decide (length (EncryptionKey opts) = 32%nat) then
    match r with
    | Ok gs => iowrap gs = SecretBoxIO (EncryptionKey opts)
    | Fail e => e ≠ key_error
    end
  else r = Fail key_error ∧ w' = w.
Proof.
  unfold NewS3Storage, minio_New. run.
  destruct (bool_decide (length (EncryptionKey opts) = 0%nat)) eqn:Hzero.
  - cases; done.
  - destruct (bool_decide (length (EncryptionKey opts) = 32%nat)) eqn:H32; decided.
    + rewrite bool_decide_eq_false_2 by (by intros []).
      cases; done.
    + by rewrite bool_decide_eq_true_2.
Qed.

(** What [NewS3Storage] builds has a wrapper with a key of the right size. *)
Lemma NewS3Storage_valid_wrapper w gs w' :
  NewS3Storage endpoint_error ctx opts w = (Ok gs, w') → valid_wrapper (iowrap gs).
Proof.
  unfold NewS3Storage, minio_New. run. intros Hnew.
  cases; decided; simpl; try done.
  unfold KeySize. by destruct (decide (length (EncryptionKey opts) = 32%nat)).
Qed.

(** The key is looked at before the client is made and before the bucket
    is asked for: with a key of a wrong length neither happens, whatever
    the endpoint and the bucket are. *)
Lemma NewS3Storage_key_first w :
  length (EncryptionKey opts) ≠ 0%nat → length (EncryptionKey opts) ≠ 32%nat →
  NewS3Storage endpoint_error ctx opts w = (Fail key_error, w).
Proof.
  intros Hzero H32. unfold NewS3Storage.
  by rewrite bool_decide_eq_false_2, bool_decide_eq_true_2.
Qed.

End Construction.

(** ** [Store] and then [Load] *)

Section RoundTrip.
Context `{TimeLayout} `{SecretBox}.
Variables (gs : S3Storage) (ctx ctx' : Context) (key : string) (value : bytes).

(** What the wrapper wrote, it reads back. *)
Lemma WrapReader_ByteReader w :
  valid_wrapper (iowrap gs) →
  WrapReader (iowrap gs) (fst (ByteReader (iowrap gs) value w)) = Ok value.
Proof.
  unfold valid_wrapper, WrapReader, ByteReader. destruct (iowrap gs) as [|k]; [done|].
  intros Hk. unfold rand_Read, mbind, M_bind, mret, M_ret. cbn [fst].
  set (nonce := entropy w <$> seq (drawn w) NonceSize).
  assert (length nonce = NonceSize) as Hn by (unfold nonce; by rewrite length_fmap, length_seq).
  rewrite bool_decide_eq_false_2 by (rewrite length_app; lia).
  rewrite <- Hn at 1 2. rewrite take_app_length, drop_app_length.
  by rewrite secretbox_Open_Seal.
Qed.

(** Claim C9. For either wrapper (with a key of 32 bytes for the
    secret-box), every key and every payload: when [Store] has
    succeeded and the two requests of the following [Load] are served,
    [Load] returns the payload that was stored, byte for byte. *)
Theorem Store_Load_roundtrip w :
  valid_wrapper (iowrap gs) →
  fst (Store gs ctx key value w) = None →
  failure (hd served (replies (snd (Store gs ctx key value w)))) = None →
  failure (hd served (tl (replies (snd (Store gs ctx key value w))))) = None →
  fst (Load gs ctx' key (snd (Store gs ctx key value w))) = Ok value.
Proof.
  intros Hio Hstore. pose proof (WrapReader_ByteReader w Hio) as Hwrap.
  revert Hstore. unfold Store, Load.
  unfold mbind, M_bind.
  destruct (ByteReader (iowrap gs) value w) as [data w0] eqn:Hdata. simpl in Hwrap.
  run. unfold minio.lookup_object. simpl.
  destruct (failure (hd served (replies w0))) eqn:Hr0; simpl; [done|].
  destruct (buckets w0 !! bucket gs) as [objs|] eqn:Hb; simpl; [|done].
  intros _ Hr1 Hr2. rewrite Hr1. simpl. rewrite Hr2. simpl.
  rewrite !lookup_insert_eq. simpl. by rewrite Hwrap.
Qed.

End RoundTrip.

(** ** The earlier [Lock] *)

Section LegacyAcquire.
Context `{TimeLayout} `{SecretBox}.
Variables (gs : S3Storage) (ctx : Context) (key : string).

(** Property X26. When [GetObject] returns without error, which is what it does for a
    record that is there as for one that is not, the earlier [Lock] writes
    the record at once. *)
Lemma Legacy_Lock_overwrites fuel w :
  failure (hd served (replies w)) = None →
  ∃ data err w',
    Legacy.Lock (S fuel) gs ctx key w = (Some err, w')
    ∧ trace w' = [EvRequest (ReqPutObject (bucket gs) (objLockName gs key) data) err;
                  EvRequest (ReqGetObject (bucket gs) (objLockName gs key)) None;
                  EvLog "Better S3: Locking for %s\n" [LStr key]]
                 ++ trace w.
Proof.
  intros Hr1. unfold Legacy.Lock. run. run. rewrite Hr1. simpl. cases; eauto.
Qed.

(** When [GetObject] fails, with whatever error, the earlier [Lock] goes
    round at once: the error is dropped and no time is waited. *)
Lemma Legacy_Lock_turn_retries startedAt w e :
  failure (hd served (replies w)) = Some e →
  ∃ w1, Legacy.Lock_turn gs ctx key startedAt w = (None, w1)
    ∧ trace w1 = EvRequest (ReqGetObject (bucket gs) (objLockName gs key)) (Some e) :: trace w
    ∧ clock w1 = clock w + Z.of_N (latency (hd served (replies w))).
Proof. intros Hr1. run. rewrite Hr1. simpl. eauto. Qed.


End LegacyAcquire.

(** ** More turns change nothing once the call has returned *)

Section Fuel.
Context `{TimeLayout}.
Variables (gs : S3Storage) (ctx : Context) (key : string).

Lemma Lock_loop_more_fuel startedAt lockFile fuel extra w err w' :
  Lock_loop fuel gs ctx key startedAt lockFile w = (Some err, w') →
  Lock_loop (fuel + extra) gs ctx key startedAt lockFile w = (Some err, w').
Proof.
  revert w. induction fuel as [|fuel IH]; intros w Hrun; simpl in *; [done|].
  destruct (Lock_turn gs ctx key startedAt lockFile w) as [[e|] w1]; [done|]. by apply IH.
Qed.

Lemma Lock_more_fuel fuel extra w err w' :
  Lock fuel gs ctx key w = (Some err, w') →
  Lock (fuel + extra) gs ctx key w = (Some err, w').
Proof. rewrite !Lock_unfold. apply Lock_loop_more_fuel. Qed.

End Fuel.

(** ** The earlier constructor and the earlier [Exists] *)

Section LegacyRest.
Context `{TimeLayout} `{SecretBox}.
Variable endpoint_error : string → option error.

(** The earlier constructor looks at the key first, too. *)
Lemma Legacy_NewS3Storage_key_first opts w :
  length (EncryptionKey opts) ≠ 0%nat → length (EncryptionKey opts) ≠ 32%nat →
  Legacy.NewS3Storage endpoint_error opts w = (Fail key_error, w).
Proof.
  intros Hzero H32. unfold Legacy.NewS3Storage.
  by rewrite bool_decide_eq_false_2, bool_decide_eq_true_2.
Qed.

(** The earlier [Exists] is the later one after a line of log. *)
Lemma Legacy_Exists_logs gs ctx key w :
  Legacy.Exists gs ctx key w
  = Exists gs ctx key (emit (EvLog "Better S3: Exists for %s\n" [LStr key]) w).
Proof. done. Qed.

End LegacyRest.

(** ** Names of objects *)

Lemma append_assoc (a b c : string) : (a +:+ b) +:+ c = a +:+ (b +:+ c).
Proof. induction a as [|x a IH]; [done|]. by rewrite !append_cons, IH. Qed.

Lemma append_cancel_r (s1 s2 t : string) : s1 +:+ t = s2 +:+ t → s1 = s2.
Proof.
  revert s2. induction s1 as [|a s1 IH]; intros [|b s2] Heq; [done| | |].
  - apply (f_equal String.length) in Heq.
    rewrite append_nil, append_cons in Heq. simpl in Heq.
    rewrite length_append in Heq. lia.
  - apply (f_equal String.length) in Heq.
    rewrite append_nil, append_cons in Heq. simpl in Heq.
    rewrite length_append in Heq. lia.
  - rewrite !append_cons in Heq. injection Heq as -> Heq. f_equal. by apply IH.
Qed.

Lemma objName_inj gs k1 k2 : objName gs k1 = objName gs k2 → k1 = k2.
Proof.
  unfold objName. intros Heq.
  apply (inj (String.app _)) in Heq. by apply (inj (String.app _)) in Heq.
Qed.

(** The name [Delete] makes of a name is never that name. *)
Lemma objName_ne gs name : objName gs name ≠ name.
Proof.
  unfold objName. intros Heq. apply (f_equal String.length) in Heq.
  rewrite !length_append in Heq. simpl in Heq. lia.
Qed.

Section Names.
Variable gs : S3Storage.

(** Property X1. Distinct keys have distinct object names and distinct
    lock-record names, and the lock record of a key [k] is the very object
    that holds the value of the key [k.lock]: lock records and stored values
    share one name space. *)
Theorem object_names_of_keys (k1 k2 : string) :
  (objName gs k1 = objName gs k2 ↔ k1 = k2)
  ∧ (objLockName gs k1 = objLockName gs k2 ↔ k1 = k2)
  ∧ objLockName gs k1 = objName gs (k1 +:+ ".lock").
Proof.
  split; [|split].
  - split; [apply objName_inj|by intros ->].
  - unfold objLockName. split; [|by intros ->].
    intros Heq. by apply append_cancel_r, objName_inj in Heq.
  - unfold objLockName, objName. by rewrite !append_assoc.
Qed.

End Names.

(** ** What a turn of [Lock] does to the bucket *)

Ltac map_hyps :=
  repeat match goal with
         | H : <[?i := _]> _ !! ?i = _ |- _ => rewrite lookup_insert_eq in H; simplify_eq/=
         end.

Ltac map_goal :=
  repeat first
    [ rewrite lookup_insert_eq
    | rewrite lookup_insert_ne by done
    | rewrite lookup_delete_eq
    | rewrite lookup_delete_ne by done
    | match goal with Hb : ?m !! ?i = Some _ |- context [?m !! ?i] => rewrite Hb end
    | match goal with Hb : ?m !! ?i = None |- context [?m !! ?i] => rewrite Hb end
    | progress simpl ].

Section TurnEffects.
Context `{TimeLayout}.
Variables (gs : S3Storage) (ctx : Context) (key : string).
Variables (startedAt : Time) (lockFile : string).

Lemma Lock_turn_trace w r w1 :
  Lock_turn gs ctx key startedAt lockFile w = (r, w1) →
  ∃ new, trace w1 = new ++ trace w.
Proof. intros Hturn. run. cases; new_events. Qed.

Lemma Lock_turn_clock w r w1 :
  Lock_turn gs ctx key startedAt lockFile w = (r, w1) → clock w ≤ clock w1.
Proof. intros Hturn. run. cases; decided; lia. Qed.

Lemma Lock_turn_variables w r w1 :
  Lock_turn gs ctx key startedAt lockFile w = (r, w1) →
  LockTimeout w1 = LockTimeout w ∧ LockExpiration w1 = LockExpiration w
  ∧ LockPollInterval w1 = LockPollInterval w.
Proof. intros Hturn. run. cases; done. Qed.

(** A turn touches at most the lock record and the object [Delete] makes
    of [lockFile]. *)
Lemma Lock_turn_frame w r w1 b n :
  Lock_turn gs ctx key startedAt lockFile w = (r, w1) →
  b ≠ bucket gs ∨ (n ≠ objLockName gs key ∧ n ≠ objName gs lockFile) →
  stored b n w1 = stored b n w.
Proof.
  intros Hturn Hother. run. unfold minio.lookup_object in *.
  cases; try done; map_hyps; unfold stored; simpl;
    (destruct (decide (b = bucket gs)) as [->|Hb];
     [destruct Hother as [?|[? ?]]; [done|]|]); by map_goal.
Qed.

(** A turn that goes round has read a record dated beyond both
    thresholds, counted from the start of the call. *)
Lemma Lock_turn_round_record w w1 :
  Lock_turn gs ctx key startedAt lockFile w = (None, w1) →
  ∃ buf lockedAt,
    stored (bucket gs) lockFile w = Some buf
    ∧ time_Parse (string_of_bytes buf) = Some lockedAt
    ∧ startedAt + LockTimeout w ≤ lockedAt
    ∧ startedAt + LockExpiration w ≤ lockedAt.
Proof.
  intros Hturn. run. unfold minio.lookup_object, After, Add in *. simpl in *.
  cases; decided; eexists _, _; unfold stored; map_goal;
    (split; [done|]); (split; [done|]); lia.
Qed.

(** A turn that returns no error has written the record, with the time at
    which the write began, as the last thing it did. *)
Lemma Lock_turn_success w w1 :
  Lock_turn gs ctx key startedAt lockFile w = (Some None, w1) →
  ∃ t, clock w ≤ t ≤ clock w1
    ∧ stored (bucket gs) (objLockName gs key) w1 = Some (bytes_of_string (time_Format t))
    ∧ head (trace w1)
      = Some (EvRequest (ReqPutObject (bucket gs) (objLockName gs key)
                           (bytes_of_string (time_Format t))) None).
Proof.
  intros Hturn. run. unfold minio.lookup_object in *. simpl in *.
  cases; decided; try (exfalso; lia); map_hyps; eexists;
    (split; [|split; [unfold stored; by map_goal|done]]); lia.
Qed.

(** A turn that returns an error leaves the lock record as it was. *)
Lemma Lock_turn_failure w err w1 :
  lockFile = objLockName gs key →
  Lock_turn gs ctx key startedAt lockFile w = (Some (Some err), w1) →
  stored (bucket gs) (objLockName gs key) w1 = stored (bucket gs) (objLockName gs key) w.
Proof.
  intros -> Hturn. pose proof (objName_ne gs (objLockName gs key)) as Hne.
  run. unfold minio.lookup_object in *. simpl in *.
  cases; try done; map_hyps; unfold stored; by map_goal.
Qed.

(** A write of a turn is its last request, for the lock record, and the
    turn returns what the write returned. *)
Lemma Lock_turn_write w r w1 new b n data err :
  Lock_turn gs ctx key startedAt lockFile w = (r, w1) →
  trace w1 = new ++ trace w →
  EvRequest (ReqPutObject b n data) err ∈ new →
  head new = Some (EvRequest (ReqPutObject b n data) err)
  ∧ b = bucket gs ∧ n = objLockName gs key ∧ r = Some err.
Proof.
  intros Hturn Hnew Hin. run.
  cases;
    match type of Hnew with
    | ?l = new ++ ?t =>
        let Hl := fresh in
        first
          [ assert (Hl : new = take 1 l) by (apply (app_inv_tail t); by rewrite <- Hnew)
          | assert (Hl : new = take 2 l) by (apply (app_inv_tail t); by rewrite <- Hnew)
          | assert (Hl : new = take 3 l) by (apply (app_inv_tail t); by rewrite <- Hnew)
          | assert (Hl : new = take 4 l) by (apply (app_inv_tail t); by rewrite <- Hnew)
          | assert (Hl : new = take 5 l) by (apply (app_inv_tail t); by rewrite <- Hnew) ];
        simpl in Hl; subst new
    end;
    repeat (apply elem_of_cons in Hin as [Hin|Hin]; simplify_eq/=);
    try (by apply elem_of_nil in Hin); done.
Qed.

End TurnEffects.

(** ** What [Lock] does to the bucket *)

Lemma stored_buckets b n w1 w2 : buckets w1 = buckets w2 → stored b n w1 = stored b n w2.
Proof. unfold stored. by intros ->. Qed.

Section LockEffects.
Context `{TimeLayout}.
Variables (gs : S3Storage) (ctx : Context) (key : string).

(** A run of the loop is a number of turns that only read and waited,
    followed, when the call has returned, by the turn that returned. *)
Lemma Lock_loop_polls startedAt lockFile fuel w r w' :
  Lock_loop fuel gs ctx key startedAt lockFile w = (r, w') →
  ∃ w0 polls,
    buckets w0 = buckets w ∧ clock w ≤ clock w0
    ∧ LockTimeout w0 = LockTimeout w ∧ LockExpiration w0 = LockExpiration w
    ∧ trace w0 = polls ++ trace w
    ∧ Forall (λ ev, mutation ev = false) polls
    ∧ match r with
      | Some err => Lock_turn gs ctx key startedAt lockFile w0 = (Some err, w')
      | None => w' = w0
      end.
Proof.
  revert w. induction fuel as [|fuel IH]; intros w Hrun; simpl in Hrun.
  - simplify_eq. exists w', []. repeat split; auto; lia.
  - destruct (Lock_turn gs ctx key startedAt lockFile w) as [[err|] w1] eqn:Hturn.
    + simplify_eq. exists w, []. repeat split; auto; lia.
    + destruct (Lock_turn_variables _ _ _ _ _ _ _ _ Hturn) as (Hv1 & Hv2 & _).
      pose proof (Lock_turn_clock _ _ _ _ _ _ _ _ Hturn) as Hc.
      apply Lock_turn_round in Hturn as (Ht & Hb & _).
      destruct (IH _ Hrun) as (w0 & polls & Hb0 & Hc0 & Hv3 & Hv4 & Ht0 & Hpolls & Hlast).
      exists w0, (polls ++ take 3 (trace w1)).
      rewrite Ht0, Ht, <- app_assoc. simpl.
      repeat split; try congruence; try lia.
      apply Forall_app. split; [done|]. by repeat constructor.
Qed.

(** Property X2. [Lock] touches nothing but the lock record of its key
    and the object whose name is that record's name with the object prefix
    in front of it once more: every other object, and every other bucket,
    is after the call what it was before, whatever the call returned and
    however long it was in its loop. *)
Theorem Lock_frame fuel w r w' b n :
  Lock fuel gs ctx key w = (r, w') →
  b ≠ bucket gs ∨ (n ≠ objLockName gs key ∧ n ≠ objName gs (objLockName gs key)) →
  stored b n w' = stored b n w.
Proof.
  intros Hrun Hother. rewrite Lock_unfold in Hrun.
  apply Lock_loop_polls in Hrun as (w0 & polls & Hb & _ & _ & _ & _ & _ & Hlast).
  rewrite <- (stored_buckets b n w0 w Hb). destruct r as [err|]; [|by subst].
  by eapply Lock_turn_frame.
Qed.

(** Property X3. [Lock] is found in its loop only for a record that is
    dated at least [LockTimeout] and at least [LockExpiration] after the
    start of the call; it has then changed nothing. A record of the past,
    however recent, never makes [Lock] wait. *)
Theorem Lock_waits_only_for_future_record fuel w w' :
  fuel ≠ 0%nat →
  Lock fuel gs ctx key w = (None, w') →
  ∃ lockedAt,
    (time_Parse <$> lock_record gs key w) = Some (Some lockedAt)
    ∧ clock w + LockTimeout w ≤ lockedAt
    ∧ clock w + LockExpiration w ≤ lockedAt
    ∧ buckets w' = buckets w.
Proof.
  intros Hfuel Hrun. rewrite Lock_unfold in Hrun.
  pose proof (Lock_loop_polls _ _ _ _ _ _ Hrun) as (w0 & _ & Hb & _ & _ & _ & _ & _ & ->).
  destruct fuel as [|fuel]; [done|]. simpl in Hrun.
  destruct (Lock_turn gs ctx key (clock w) (objLockName gs key) w) as [[err|] w1] eqn:Hturn;
    [done|].
  apply Lock_turn_round_record in Hturn as (buf & lockedAt & Hst & Hparse & H1 & H2).
  exists lockedAt. unfold lock_record. rewrite Hst. simpl. rewrite Hparse. done.
Qed.

(** Property X4. When [Lock] returns no error, the last thing it did was
    a served write of the lock record of its key, and the record now holds
    the time at which that write began, a time within the call. *)
Theorem Lock_success_leaves_record fuel w w' :
  Lock fuel gs ctx key w = (Some None, w') →
  ∃ t, clock w ≤ t ≤ clock w'
    ∧ lock_record gs key w' = Some (time_Format t)
    ∧ head (trace w')
      = Some (EvRequest (ReqPutObject (bucket gs) (objLockName gs key)
                           (bytes_of_string (time_Format t))) None).
Proof.
  intros Hrun. rewrite Lock_unfold in Hrun.
  apply Lock_loop_polls in Hrun as (w0 & polls & _ & Hc & _ & _ & _ & _ & Hlast).
  apply Lock_turn_success in Hlast as (t & Ht & Hst & Hhd).
  exists t. split; [lia|]. split; [|done].
  unfold lock_record. rewrite Hst. simpl.
  unfold string_of_bytes, bytes_of_string. by rewrite string_of_list_byte_of_string.
Qed.

(** Property X5. When [Lock] returns an error, of the store, of its own
    or of the context, the lock record of its key is what it was before the
    call (a request that fails has no effect on the bucket). *)
Theorem Lock_failure_keeps_record fuel w err w' :
  Lock fuel gs ctx key w = (Some (Some err), w') →
  lock_record gs key w' = lock_record gs key w.
Proof.
  intros Hrun. rewrite Lock_unfold in Hrun.
  apply Lock_loop_polls in Hrun as (w0 & polls & Hb & _ & _ & _ & _ & _ & Hlast).
  apply Lock_turn_failure in Hlast; [|done].
  unfold lock_record. by rewrite Hlast, (stored_buckets _ _ w0 w Hb).
Qed.

(** Property X6. [Lock] writes at most once. A write it sends is for the
    lock record of its key in its bucket, it is the last thing the call
    does, and the call returns what the write returned. *)
Theorem Lock_write_is_last fuel w r w' new b n data err :
  Lock fuel gs ctx key w = (r, w') →
  trace w' = new ++ trace w →
  EvRequest (ReqPutObject b n data) err ∈ new →
  head new = Some (EvRequest (ReqPutObject b n data) err)
  ∧ b = bucket gs ∧ n = objLockName gs key ∧ r = Some err.
Proof.
  intros Hrun Hnew Hin. rewrite Lock_unfold in Hrun.
  apply Lock_loop_polls in Hrun as (w0 & polls & _ & _ & _ & _ & Ht0 & Hpolls & Hlast).
  assert (EvRequest (ReqPutObject b n data) err ∉ polls) as Hnotin.
  { intros Hp. rewrite Forall_forall in Hpolls. by specialize (Hpolls _ Hp). }
  destruct r as [e|].
  - destruct (Lock_turn_trace _ _ _ _ _ _ _ _ Hlast) as [last Hl].
    assert (new = last ++ polls) as ->.
    { apply (app_inv_tail (trace w)). by rewrite <- Hnew, Hl, Ht0, app_assoc. }
    apply elem_of_app in Hin as [Hin|Hin]; [|done].
    destruct (Lock_turn_write _ _ _ _ _ _ _ _ _ _ _ _ _ Hlast Hl Hin) as (Hhd & -> & -> & ->).
    repeat split; try done. destruct last; simplify_eq/=; done.
  - subst w0. assert (new = polls) as ->.
    { apply (app_inv_tail (trace w)). by rewrite <- Hnew, Ht0. }
    done.
Qed.

End LockEffects.

(** ** [Unlock] *)

Section Release.
Context `{TimeLayout}.
Variables (gs : S3Storage) (ctx : Context) (key : string).

(** Property X7. [Unlock], when its request is served in a bucket that
    exists, returns no error and leaves no lock record for the key,
    whether there was one or not and whatever it held; every other object
    is untouched. When the request fails, the failure is returned as it is
    and the bucket is unchanged. *)
Theorem Unlock_removes_record w :
  is_Some (buckets w !! bucket gs) →
  let '(r, w') := Unlock gs ctx key w in
  match failure (hd served (replies w)) with
  | None =>
      r = None ∧ lock_record gs key w' = None
      ∧ ∀ b n, (b, n) ≠ (bucket gs, objLockName gs key) → stored b n w' = stored b n w
  | Some e => r = Some e ∧ buckets w' = buckets w
  end.
Proof.
  intros [objs Hb]. run.
  destruct (failure (hd served (replies w))) as [e|] eqn:Hr; simpl; [done|].
  rewrite Hb. simpl. split; [done|]. split.
  - unfold lock_record, stored. simpl. by map_goal.
  - intros b n Hne. unfold stored. simpl.
    destruct (decide (b = bucket gs)) as [->|?]; [|by map_goal].
    destruct (decide (n = objLockName gs key)) as [->|?]; [done|]. by map_goal.
Qed.

End Release.

(** ** [Store] and the operations that only read *)

Section Values.
Context `{TimeLayout} `{SecretBox}.
Variables (gs : S3Storage) (key : string).

Lemma ByteReader_world io value w :
  let w0 := snd (ByteReader io value w) in
  buckets w0 = buckets w ∧ replies w0 = replies w ∧ trace w0 = trace w ∧ clock w0 = clock w.
Proof. destruct io; done. Qed.

(** Property X8. [Store] sends one write, for the object of its key.
    When it returns no error that object exists; when it returns an error
    the bucket is unchanged; in both cases every other object is
    untouched. *)
Theorem Store_writes_one_object ctx value w :
  let '(r, w') := Store gs ctx key value w in
  (∃ data, trace w' = EvRequest (ReqPutObject (bucket gs) (objName gs key) data) r :: trace w
           ∧ match r with
             | None => stored (bucket gs) (objName gs key) w' = Some data
             | Some _ => buckets w' = buckets w
             end)
  ∧ ∀ b n, (b, n) ≠ (bucket gs, objName gs key) → stored b n w' = stored b n w.
Proof.
  unfold Store, mbind, M_bind.
  destruct (ByteReader (iowrap gs) value w) as [data w0] eqn:Hdata.
  pose proof (ByteReader_world (iowrap gs) value w) as Hw0. rewrite Hdata in Hw0.
  simpl in Hw0. destruct Hw0 as (Hb0 & Hr0 & Ht0 & Hc0).
  unfold minio.PutObject, minio.call, fmap, M_fmap. simpl.
  destruct (failure (hd served (replies w0))) as [e|] eqn:Hr; simpl.
  - split; [exists data; by rewrite Ht0|]. intros b n _. by apply stored_buckets.
  - destruct (buckets w0 !! bucket gs) as [objs|] eqn:Hb; simpl.
    + split; [exists data; split; [by rewrite Ht0|unfold stored; simpl; by map_goal]|].
      intros b n Hne. rewrite <- (stored_buckets b n w0 w Hb0). unfold stored. simpl.
      destruct (decide (b = bucket gs)) as [->|?]; [|by map_goal].
      destruct (decide (n = objName gs key)) as [->|?]; [done|]. by map_goal.
    + split; [exists data; by rewrite Ht0|]. intros b n _. by apply stored_buckets.
Qed.

(** Property X9. [Load], [Stat], [Exists] and [List] only read: whatever
    they return, the buckets are after the call what they were before. *)
Theorem reads_leave_buckets ctx prefix recursive w :
  buckets (snd (Load gs ctx key w)) = buckets w
  ∧ buckets (snd (Stat gs ctx key w)) = buckets w
  ∧ buckets (snd (Exists gs ctx key w)) = buckets w
  ∧ buckets (snd (List gs ctx prefix recursive w)) = buckets w.
Proof.
  repeat split; run; unfold minio.lookup_object; cases; done.
Qed.

(** Property X10. [Stat] of a key whose object is stored, the request
    served: the information returned names the key as it was asked for (not
    the prefixed object name), gives the size of the stored bytes and the
    time of the last write, and is terminal; there is no error. *)
Theorem Stat_stored ctx w objs blob :
  failure (hd served (replies w)) = None →
  buckets w !! bucket gs = Some objs →
  objs !! objName gs key = Some blob →
  fst (Stat gs ctx key w)
  = ({| certmagic.Key := key; certmagic.Modified := modified blob;
        certmagic.Size := Z.of_nat (length (content blob));
        certmagic.IsTerminal := true |}, None).
Proof.
  intros Hr Hb Ho. run. unfold minio.lookup_object. simpl.
  rewrite Hr. simpl. by rewrite Hb, Ho.
Qed.

(** Property X11. A failure of the store that is not a not-found
    response comes out of [Load] and [Stat] as it went in: the same error
    value, not wrapped, whether it meets the first request of [Load] or,
    the first being served, the second. *)
Theorem Load_Stat_pass_errors_on ctx w l l' e :
  isNotFound e = false →
  let failing := {| latency := l; failure := Some e |} in
  let first := set_replies (failing :: replies w) w in
  let second := set_replies ({| latency := l'; failure := None |} :: failing :: replies w) w in
  fst (Load gs ctx key first) = Fail e
  ∧ snd (fst (Stat gs ctx key first)) = Some e
  ∧ fst (Load gs ctx key second) = Fail e.
Proof. intros He. simpl. repeat split; run; by rewrite He. Qed.

(** Property X12. [Load] and [Stat] return [fs.ErrNotExist] for a key
    that has no stored object when their requests are served, and whenever
    the service answers their first request with a not-found response. *)
Theorem Load_Stat_not_exist ctx w :
  (failure (hd served (replies w)) = None
   ∧ failure (hd served (tl (replies w))) = None
   ∧ stored (bucket gs) (objName gs key) w = None)
  ∨ (∃ e, isNotFound e = true ∧ failure (hd served (replies w)) = Some e) →
  fst (Load gs ctx key w) = Fail ErrNotExist
  ∧ snd (fst (Stat gs ctx key w)) = Some ErrNotExist.
Proof.
  intros [(Hr1 & Hr2 & Hst)|(e & He & Hr)].
  - split; [by apply Load_missing|by rewrite Stat_missing].
  - split; [apply (Load_not_found gs ctx key w e He); by left|].
    by rewrite (Stat_not_found gs ctx key w e He Hr).
Qed.

Lemma Exists_missing ctx w :
  stored (bucket gs) (objName gs key) w = None → fst (Exists gs ctx key w) = false.
Proof.
  unfold stored. run. unfold minio.lookup_object. simpl.
  destruct (buckets w !! bucket gs) as [objs|] eqn:Hb; simpl.
  - destruct (objs !! objName gs key) eqn:Ho; simpl; cases; congruence.
  - cases; congruence.
Qed.

Lemma Store_stored ctx value w :
  fst (Store gs ctx key value w) = None →
  ∃ objs blob, buckets (snd (Store gs ctx key value w)) !! bucket gs = Some objs
               ∧ objs !! objName gs key = Some blob.
Proof.
  unfold Store, mbind, M_bind.
  destruct (ByteReader (iowrap gs) value w) as [data w0].
  unfold minio.PutObject, minio.call, fmap, M_fmap. simpl.
  destruct (failure (hd served (replies w0))) as [e|]; simpl; [done|].
  destruct (buckets w0 !! bucket gs) as [objs|] eqn:Hb; simpl; [|done].
  intros _. eexists _, _. by map_goal.
Qed.

(** Property X13. After a [Delete] that was served in a bucket that
    exists, the key is gone: [Delete] returned no error, [Exists] is false
    whatever the network then does, and [Load] and [Stat], when their
    requests are served, return [fs.ErrNotExist]. *)
Theorem Delete_then_missing ctx ctx' w :
  failure (hd served (replies w)) = None →
  failure (hd served (tl (replies w))) = None →
  failure (hd served (tl (tl (replies w)))) = None →
  is_Some (buckets w !! bucket gs) →
  fst (Delete gs ctx key w) = None
  ∧ (∀ rs, fst (Exists gs ctx' key (set_replies rs (snd (Delete gs ctx key w)))) = false)
  ∧ snd (fst (Stat gs ctx' key (snd (Delete gs ctx key w)))) = Some ErrNotExist
  ∧ fst (Load gs ctx' key (snd (Delete gs ctx key w))) = Fail ErrNotExist.
Proof.
  intros Hr Hr1 Hr2 [objs Hb].
  assert (stored (bucket gs) (objName gs key) (snd (Delete gs ctx key w)) = None
          ∧ replies (snd (Delete gs ctx key w)) = tl (replies w)) as [Hgone Hrep].
  { run. rewrite Hr. simpl. rewrite Hb. unfold stored. simpl. by map_goal. }
  split; [by rewrite (Delete_served gs ctx key w objs)|]. split; [|split].
  - intros rs. by apply Exists_missing.
  - rewrite Stat_missing; [done|by rewrite Hrep|done].
  - apply Load_missing; [by rewrite Hrep|by rewrite Hrep|done].
Qed.

(** Property X14. After a [Store] that returned no error, the key is
    there: [Exists], when its request is served, is true, and [Stat], when
    served, returns the key with no error. *)
Theorem Store_then_exists ctx ctx' value w :
  fst (Store gs ctx key value w) = None →
  failure (hd served (replies (snd (Store gs ctx key value w)))) = None →
  fst (Exists gs ctx' key (snd (Store gs ctx key value w))) = true
  ∧ certmagic.Key (fst (fst (Stat gs ctx' key (snd (Store gs ctx key value w))))) = key
  ∧ snd (fst (Stat gs ctx' key (snd (Store gs ctx key value w)))) = None.
Proof.
  intros Hstore Hr.
  destruct (Store_stored ctx value w Hstore) as (objs & blob & Hb & Ho).
  run. unfold minio.lookup_object. simpl. rewrite Hr. simpl. by rewrite Hb, Ho.
Qed.

End Values.

(** ** Taking a lock, giving it back, taking it again *)

Lemma served_hd (l : list Reply) :
  Forall (λ rp, failure rp = None) l →
  failure (hd served l) = None ∧ Forall (λ rp, failure rp = None) (tl l).
Proof. intros [|rp l' Hrp Hl]; simpl; auto. Qed.

Section RoundTripOfLock.
Context `{TimeLayout}.
Variables (gs : S3Storage) (key : string).

(** [Lock] on a key without a record, with what it leaves behind. *)
Lemma Lock_absent_record_world ctx fuel w objs :
  failure (hd served (replies w)) = None →
  failure (hd served (tl (replies w))) = None →
  failure (hd served (tl (tl (replies w)))) = None →
  buckets w !! bucket gs = Some objs →
  objs !! objLockName gs key = None →
  ∃ w' blob new,
    Lock (S fuel) gs ctx key w = (Some None, w')
    ∧ buckets w' = <[bucket gs := <[objLockName gs key := blob]> objs]> (buckets w)
    ∧ replies w' = tl (tl (tl (replies w)))
    ∧ trace w' = new ++ trace w ∧ Forall (λ ev, is_timer ev = false) new.
Proof.
  intros Hr1 Hr2 Hr3 Hb Ho. rewrite Lock_unfold. simpl.
  run. unfold minio.lookup_object. simpl.
  rewrite Hr1. simpl. rewrite Hr2. simpl. rewrite Hb, Ho. simpl.
  rewrite Hr3. simpl. rewrite Hb. simpl.
  eexists _, _, [_; _; _]. repeat split. by repeat constructor.
Qed.

(** Property X15. On a network that serves every request, in a bucket
    without a lock record for the key: [Lock] returns no error and leaves a
    record, [Unlock] then returns no error and leaves none, and a second
    [Lock] returns no error at its first turn. None of the three calls
    waits. *)
Theorem Lock_Unlock_Lock ctx w objs :
  Forall (λ rp, failure rp = None) (replies w) →
  buckets w !! bucket gs = Some objs →
  objs !! objLockName gs key = None →
  ∃ w1 w2 w3,
    Lock 1 gs ctx key w = (Some None, w1) ∧ is_Some (lock_record gs key w1)
    ∧ Unlock gs ctx key w1 = (None, w2) ∧ lock_record gs key w2 = None
    ∧ Lock 1 gs ctx key w2 = (Some None, w3) ∧ is_Some (lock_record gs key w3)
    ∧ ∃ new, trace w3 = new ++ trace w ∧ Forall (λ ev, is_timer ev = false) new.
Proof.
  intros Hs0 Hb Ho.
  destruct (served_hd _ Hs0) as [Hr1 Hs1]. destruct (served_hd _ Hs1) as [Hr2 Hs2].
  destruct (served_hd _ Hs2) as [Hr3 Hs3]. destruct (served_hd _ Hs3) as [Hr4 Hs4].
  destruct (served_hd _ Hs4) as [Hr5 Hs5]. destruct (served_hd _ Hs5) as [Hr6 Hs6].
  destruct (served_hd _ Hs6) as [Hr7 _].
  destruct (Lock_absent_record_world ctx 0 w objs Hr1 Hr2 Hr3 Hb Ho)
    as (w1 & blob & new1 & Hlock1 & Hb1 & Hrep1 & Ht1 & Hn1).
  assert (buckets w1 !! bucket gs = Some (<[objLockName gs key := blob]> objs)) as Hb1'
    by (rewrite Hb1; by map_goal).
  destruct (Unlock gs ctx key w1) as [r2 w2] eqn:Hunlock.
  assert (r2 = None
          ∧ buckets w2 = <[bucket gs := delete (objLockName gs key)
                                          (<[objLockName gs key := blob]> objs)]> (buckets w1)
          ∧ replies w2 = tl (replies w1)
          ∧ trace w2 = EvRequest (ReqRemoveObject (bucket gs) (objLockName gs key)) None
                         :: trace w1) as (-> & Hb2 & Hrep2 & Ht2).
  { revert Hunlock. run. rewrite Hrep1, Hr4. simpl. rewrite Hb1'. simpl.
    by intros [= <- <-]. }
  assert (buckets w2 !! bucket gs
          = Some (delete (objLockName gs key) (<[objLockName gs key := blob]> objs))) as Hb2'
    by (rewrite Hb2; by map_goal).
  destruct (Lock_absent_record_world ctx 0 w2 _ ltac:(by rewrite Hrep2, Hrep1)
              ltac:(by rewrite Hrep2, Hrep1) ltac:(by rewrite Hrep2, Hrep1) Hb2'
              ltac:(by map_goal))
    as (w3 & blob3 & new3 & Hlock3 & Hb3 & _ & Ht3 & Hn3).
  exists w1, w2, w3. repeat split; try done.
  - unfold lock_record, stored. rewrite Hb1'. simpl. by map_goal.
  - unfold lock_record, stored. rewrite Hb2'. simpl. by map_goal.
  - unfold lock_record, stored. rewrite Hb3. by map_goal.
  - exists (new3 ++ EvRequest (ReqRemoveObject (bucket gs) (objLockName gs key)) None :: new1).
    split; [by rewrite Ht3, Ht2, Ht1, <- app_assoc|].
    apply Forall_app. split; [done|]. by constructor.
Qed.

End RoundTripOfLock.

(** ** Building the storage *)

Section Built.
Context `{TimeLayout} `{SecretBox}.
Variable endpoint_error : string → option error.

(** Property X16. [NewS3Storage] changes no bucket and sends at most one
    request, the question whether the bucket exists, after the line of log
    that tells the wrapper. It returns a storage only when the endpoint was
    accepted, that request was served and the bucket is there; the storage
    then has the prefix and the bucket of the options and a wrapper with a
    key of the right size. Otherwise the error is the key error, the error
    of the endpoint or of the request, wrapped, or the error that the bucket
    does not exist. *)
Theorem NewS3Storage_built ctx opts w :
  let '(r, w') := NewS3Storage endpoint_error ctx opts w in
  buckets w' = buckets w
  ∧ (trace w' = trace w
     ∨ ∃ line, is_log line = true
         ∧ (trace w' = line :: trace w
            ∨ ∃ e, trace w' = EvRequest (ReqBucketExists (Bucket opts)) e :: line :: trace w))
  ∧ match r with
    | Ok gs =>
        endpoint_error (Endpoint opts) = None
        ∧ failure (hd served (replies w)) = None
        ∧ is_Some (buckets w !! Bucket opts)
        ∧ prefix gs = ObjPrefix opts ∧ bucket gs = Bucket opts
        ∧ valid_wrapper (iowrap gs)
    | Fail err =>
        err = key_error
        ∨ (∃ e, endpoint_error (Endpoint opts) = Some e
                ∧ err = wrapError "geting s3 client" e)
        ∨ (∃ e, failure (hd served (replies w)) = Some e
                ∧ err = wrapError "checking if bucket exists" e)
        ∨ (buckets w !! Bucket opts = None
           ∧ err = errorString ("S3 bucket " +:+ Bucket opts +:+ " does not exist"))
    end.
Proof.
  unfold NewS3Storage, minio_New. run.
  cases; decided; simpl; (split; [done|]);
    (split;
     [ first [ left; reflexivity
             | right; eexists; (split; [|left; reflexivity]); reflexivity
             | right; eexists; (split; [|right; eexists; reflexivity]); reflexivity ] |]).
  all: first
    [ by left
    | right; left; by eexists
    | right; right; left; by eexists
    | do 3 right; split; [|done];
      by match goal with
         | Hn : ¬ is_Some ?x |- ?x = None => destruct x; [exfalso; apply Hn; eauto|done]
         end
    | repeat split; try done;
      unfold valid_wrapper, KeySize; simpl;
      by destruct (decide (length (EncryptionKey opts) = 32%nat)) ].
Qed.

End Built.

(** ** [List] and the errors of a listing *)

Section ListErrors.
Context `{TimeLayout}.
Variables (gs : S3Storage) (ctx : Context).

(** Property X17. [List] never returns an error. When the request of
    the listing fails, whatever the failure, it is dropped and the keys
    returned are one empty key. *)
Theorem List_never_fails prefix recursive w :
  snd (fst (List gs ctx prefix recursive w)) = None
  ∧ ∀ l e, fst (List gs ctx prefix recursive
                  (set_replies ({| latency := l; failure := Some e |} :: replies w) w))
           = ([""], None).
Proof. split; [by run; cases|]. intros l e. by run. Qed.

End ListErrors.

(** ** A lock record that does not parse *)

Section Corrupt.
Context `{TimeLayout}.
Variables (gs : S3Storage) (ctx : Context) (key : string).

(** Property X18. A lock record that [Lock] could read and that is not a
    time is written over at the first turn, without a wait, a removal or a
    line of log, and the call returns what the write returned. *)
Theorem Lock_corrupt_record fuel w buf :
  failure (hd served (replies w)) = None →
  failure (hd served (tl (replies w))) = None →
  stored (bucket gs) (objLockName gs key) w = Some buf →
  time_Parse (string_of_bytes buf) = None →
  ∃ err w',
    Lock (S fuel) gs ctx key w = (Some err, w')
    ∧ trace w' = [EvRequest (ReqPutObject (bucket gs) (objLockName gs key)
                               (bytes_of_string
                                  (time_Format
                                     (clock w + Z.of_N (latency (hd served (replies w)))
                                      + Z.of_N (latency (hd served (tl (replies w))))))))
                            err;
                  EvRequest (ReqReadAll (bucket gs) (objLockName gs key)) None;
                  EvRequest (ReqGetObject (bucket gs) (objLockName gs key)) None]
                 ++ trace w.
Proof.
  intros Hr1 Hr2 Hst Hparse. rewrite Lock_unfold. simpl.
  unfold stored in Hst.
  destruct (buckets w !! bucket gs) as [objs|] eqn:Hb; [|done]. simpl in Hst.
  destruct (objs !! objLockName gs key) as [b|] eqn:Ho; [|done]. simplify_eq/=.
  run. unfold minio.lookup_object. simpl.
  rewrite Hr1. simpl. rewrite Hr2. simpl. rewrite Hb, Ho. simpl.
  rewrite Hparse. cases; eauto.
Qed.

End Corrupt.

(** ** The earlier methods *)

Section LegacyMethods.
Context `{TimeLayout} `{SecretBox}.
Variables (gs : S3Storage) (ctx : Context) (key : string).

Lemma Legacy_Lock_loop_spins startedAt fuel w :
  (fuel ≤ length (replies w))%nat →
  Forall (λ rp, failure rp ≠ None) (take fuel (replies w)) →
  ∃ w' gets,
    Legacy.Lock_loop fuel gs ctx key startedAt w = (None, w')
    ∧ buckets w' = buckets w
    ∧ replies w' = drop fuel (replies w)
    ∧ trace w' = gets ++ trace w
    ∧ length gets = fuel
    ∧ Forall (λ ev, ∃ e, ev = EvRequest (ReqGetObject (bucket gs) (objLockName gs key))
                                (Some e)) gets.
Proof.
  revert w. induction fuel as [|fuel IH]; intros w Hlen Hfail.
  - exists w, []. simpl. by repeat split.
  - destruct (replies w) as [|rp rest] eqn:Hrep; [simpl in Hlen; lia|].
    simpl in Hlen, Hfail. apply Forall_cons in Hfail as [Hrp Hfail].
    destruct (failure rp) as [e|] eqn:He; [|done].
    destruct (Legacy_Lock_turn_retries gs ctx key startedAt w e) as (w1 & Hturn & Ht1 & _).
    { by rewrite Hrep. }
    assert (buckets w1 = buckets w ∧ replies w1 = rest) as [Hb1 Hrep1].
    { revert Hturn. run. rewrite Hrep. simpl. rewrite He. by intros [= <-]. }
    destruct (IH w1) as (w' & gets & Hrun & Hb & Hr & Ht & Hl & Hg).
    { rewrite Hrep1. lia. } { by rewrite Hrep1. }
    exists w', (gets ++ [EvRequest (ReqGetObject (bucket gs) (objLockName gs key)) (Some e)]).
    simpl. rewrite Hturn. split; [done|]. split; [congruence|]. split; [congruence|].
    split; [by rewrite Ht, Ht1, <- app_assoc|].
    split; [rewrite length_app; simpl; lia|].
    apply Forall_app. split; [done|]. repeat constructor. by eexists.
Qed.

(** Property X19. The earlier [Lock], as long as [GetObject] fails, does
    nothing but call it again: after as many turns as there are failing
    replies it has not returned, has waited for nothing and written
    nothing, and the errors are gone. *)
Theorem Legacy_Lock_spins fuel w :
  (fuel ≤ length (replies w))%nat →
  Forall (λ rp, failure rp ≠ None) (take fuel (replies w)) →
  ∃ w' gets,
    Legacy.Lock fuel gs ctx key w = (None, w')
    ∧ buckets w' = buckets w
    ∧ replies w' = drop fuel (replies w)
    ∧ trace w' = gets ++ EvLog "Better S3: Locking for %s\n" [LStr key] :: trace w
    ∧ length gets = fuel
    ∧ Forall (λ ev, ∃ e, ev = EvRequest (ReqGetObject (bucket gs) (objLockName gs key))
                                (Some e)) gets.
Proof.
  intros Hlen Hfail. unfold Legacy.Lock, mbind, M_bind. simpl.
  apply (Legacy_Lock_loop_spins (clock w) fuel
           (emit (EvLog "Better S3: Locking for %s\n" [LStr key]) w)); done.
Qed.

(** Property X20. The earlier [Load] and [Stat] hand on what the client
    returned: for a key without a stored object, in a bucket that exists
    and with the requests served, that is the not-found response of the
    service and not [fs.ErrNotExist]. *)
Theorem Legacy_missing_is_raw w objs :
  failure (hd served (replies w)) = None →
  failure (hd served (tl (replies w))) = None →
  buckets w !! bucket gs = Some objs →
  objs !! objName gs key = None →
  snd (fst (Legacy.Stat gs ctx key w)) = Some minio.NoSuchKey
  ∧ fst (Legacy.Load gs ctx key w) = Fail minio.NoSuchKey.
Proof.
  intros Hr1 Hr2 Hb Ho. split.
  - run. unfold minio.lookup_object. simpl. rewrite Hr1. simpl. by rewrite Hb, Ho.
  - run. unfold minio.lookup_object. simpl.
    rewrite Hr1. simpl. rewrite Hr2. simpl. by rewrite Hb, Ho.
Qed.

(** Property X21. The earlier [List], asked for a recursive listing that
    is served, returns the stored keys that begin with the prefix as it
    was given, without the object prefix of the storage in front. *)
Theorem Legacy_List_keys p w objs k :
  failure (hd served (replies w)) = None →
  buckets w !! bucket gs = Some objs →
  k ∈ fst (fst (Legacy.List gs ctx p true w)) ↔ k ∈ dom objs ∧ HasPrefix k p = true.
Proof.
  intros Hr1 Hb. run. rewrite Hr1. simpl. rewrite Hb. simpl.
  rewrite Key_info_of. apply elem_of_listing_recursive.
Qed.

End LegacyMethods.

(** ** [Lock], the context of the caller and the failures of the store *)

Section TurnEnds.
Context `{TimeLayout}.
Variables (gs : S3Storage) (ctx : Context) (key : string).
Variables (startedAt : Time) (lockFile : string).

(** A turn that meets a failure that ends the call ends it there, with an
    error that carries the failure. *)
Lemma Lock_turn_ends w r w1 new req e :
  Lock_turn gs ctx key startedAt lockFile w = (r, w1) →
  trace w1 = new ++ trace w →
  EvRequest req (Some e) ∈ new →
  ends_call req e = true →
  head new = Some (EvRequest req (Some e))
  ∧ ∃ err, r = Some (Some err) ∧ errors_Is err e = true.
Proof.
  intros Hr Ht Hin Hends. run.
  cases; new_is Ht new;
    repeat (apply elem_of_cons in Hin as [Hin|Hin]; simplify_eq/=);
    try (by apply elem_of_nil in Hin);
    try (apply negb_true_iff in Hends; congruence);
    try congruence;
    (split; [done|]); eexists; (split; [done|]);
    auto using errors_Is_refl, errors_Is_wrap.
Qed.




(** A run of the loop, turn by turn: the turns that went round left
    nothing but their reads and their timers, the last of them ended with
    the context still open, and the turn that returned, if there is one,
    started from there. *)
Lemma Lock_loop_last fuel w r w' :
  Lock_loop fuel gs ctx key startedAt lockFile w = (r, w') →
  ∃ w0 polls k,
    buckets w0 = buckets w
    ∧ LockTimeout w0 = LockTimeout w ∧ LockExpiration w0 = LockExpiration w
    ∧ replies w0 = drop k (replies w)
    ∧ trace w0 = polls ++ trace w
    ∧ Forall (λ ev, ev ∈ poll_events gs lockFile (LockPollInterval w)) polls
    ∧ clock w ≤ clock w0
    ∧ (w0 = w ∨ ∀ d, done_at ctx = Some d → clock w0 < d)
    ∧ match r with
      | Some err => Lock_turn gs ctx key startedAt lockFile w0 = (Some err, w')
      | None => w' = w0
      end.
Proof.
  revert w. induction fuel as [|fuel IH]; intros w Hrun; simpl in Hrun.
  - simplify_eq. exists w', [], 0%nat. repeat split; auto; lia.
  - destruct (Lock_turn gs ctx key startedAt lockFile w) as [[err|] w1] eqn:Hturn.
    + simplify_eq. exists w, [], 0%nat. repeat split; auto; lia.
    + destruct (Lock_turn_variables _ _ _ _ _ _ _ _ Hturn) as (Hv1 & Hv2 & Hv3).
      pose proof (Lock_turn_clock _ _ _ _ _ _ _ _ Hturn) as Hc.
      apply Lock_turn_round in Hturn as (Ht & Hb & _ & Hrep & _ & Hopen).
      destruct (IH _ Hrun)
        as (w0 & polls & k & Hb0 & Hv4 & Hv5 & Hrep0 & Ht0 & Hpolls & Hc0 & Hfirst & Hlast).
      exists w0, (polls ++ poll_events gs lockFile (LockPollInterval w)), (2 + k)%nat.
      rewrite Ht0, Ht, <- app_assoc.
      split; [congruence|]. split; [congruence|]. split; [congruence|].
      split.
      { rewrite Hrep0, Hrep.
        destruct (replies w) as [|? [|? ?]]; simpl; by rewrite ?drop_nil. }
      split; [done|]. split.
      { apply Forall_app. split; [by rewrite <- Hv3|].
        apply Forall_forall. auto. }
      split; [lia|]. split; [|done].
      right. intros d Hd. destruct Hfirst as [->|Hlt]; auto.
Qed.

(** They change nothing, none of them is [ctx.Done()], and none is a
    request that failed. *)
Lemma poll_events_quiet poll ev :
  ev ∈ poll_events gs lockFile poll →
  mutation ev = false ∧ ev ≠ EvDone ∧ ∀ req e, ev ≠ EvRequest req (Some e).
Proof.
  intros Hin. unfold poll_events in Hin.
  repeat (apply elem_of_cons in Hin as [->|Hin]; [by repeat split|]).
  by apply elem_of_nil in Hin.
Qed.

(** However many turns are run, a failure that ends the call is the last
    thing that happened, and the call has returned an error that carries
    it. *)
Lemma Lock_loop_ends fuel w r w' new req e :
  Lock_loop fuel gs ctx key startedAt lockFile w = (r, w') →
  trace w' = new ++ trace w →
  EvRequest req (Some e) ∈ new →
  ends_call req e = true →
  head new = Some (EvRequest req (Some e))
  ∧ ∃ err, r = Some (Some err) ∧ errors_Is err e = true.
Proof.
  intros Hrun Hnew Hin Hends.
  apply Lock_loop_last in Hrun
    as (w0 & polls & k & _ & _ & _ & _ & Ht0 & Hpolls & _ & _ & Hlast).
  assert (EvRequest req (Some e) ∉ polls) as Hquiet.
  { intros Hp. rewrite Forall_forall in Hpolls.
    apply Hpolls, poll_events_quiet in Hp as (_ & _ & Hp). by eapply Hp. }
  destruct r as [err|].
  - destruct (Lock_turn_trace _ _ _ _ _ _ _ _ Hlast) as [last Hl].
    assert (new = last ++ polls) as ->.
    { apply (app_inv_tail (trace w)). by rewrite <- Hnew, Hl, Ht0, app_assoc. }
    apply elem_of_app in Hin as [Hin|Hin]; [|done].
    edestruct Lock_turn_ends as (Hhd & Herr); [exact Hlast|exact Hl|exact Hin|exact Hends|].
    split; [|done]. by destruct last.
  - subst w0. assert (new = polls) as ->; [|done].
    apply (app_inv_tail (trace w)). by rewrite <- Hnew.
Qed.

End TurnEnds.

Section LockEnds.
Context `{TimeLayout}.
Variables (gs : S3Storage) (ctx : Context) (key : string).

(** Claim C5, for the [Lock] that waits in a [select]: a [GetObject] or
    [ReadAll] that fails with anything but not-found, a [PutObject] that
    fails, and a [RemoveObject] that fails with a response of the service
    other than not-found, each end the acquisition. The failing request is
    the last thing the call did, however many turns it was given, and the
    call has returned an error whose chain holds the failure: no such
    failure is followed by another turn of the loop.
    The earlier [Lock] does otherwise: when [GetObject] fails, with whatever
    error, its turn drops the error and goes round at once, the bucket as
    it was and no time waited. *)
Theorem Lock_storage_error_aborts :
  (∀ fuel w r w' new req e,
     Lock fuel gs ctx key w = (r, w') →
     trace w' = new ++ trace w →
     EvRequest req (Some e) ∈ new →
     ends_call req e = true →
     head new = Some (EvRequest req (Some e))
     ∧ ∃ err, r = Some (Some err) ∧ errors_Is err e = true)
  ∧ (∀ startedAt l e w,
       ∃ w1,
         Legacy.Lock_turn gs ctx key startedAt
           (set_replies ({| latency := l; failure := Some e |} :: replies w) w) = (None, w1)
         ∧ trace w1 = EvRequest (ReqGetObject (bucket gs) (objLockName gs key)) (Some e)
                        :: trace w
         ∧ buckets w1 = buckets w
         ∧ replies w1 = replies w
         ∧ clock w1 = clock w + Z.of_N l).
Proof.
  split.
  - intros fuel w r w' new req e Hlock Hnew Hin Hends. rewrite Lock_unfold in Hlock.
    by eapply Lock_loop_ends.
  - intros startedAt l e w. run. eauto 10.
Qed.


End LockEnds.

(** * Scenarios

    The storage of the examples ([Fixture.storage]: bucket ["certs"], object
    prefix ["acme"]) in worlds whose clock and bucket are given, with the
    RFC 3339 layout and the example cipher. *)

Import RFC3339 XorBoxLaws.

(** Claim C1, at a lock taken one second ago. The record of
    ["example.com"] reads 12:00:00 and [Lock] is called at 12:00:01, so the
    age of the lock is one second, far within [LockTimeout]. [Lock] does not
    wait: at its first turn it writes a new record over the one it found and
    returns success. *)
Theorem Lock_overwrites_fresh_record :
  let gs := Fixture.storage CleartextIO in
  let w := Fixture.world (Fixture.locked "2024-05-01T12:00:00Z")
                         (Fixture.noon + 1 * Second) [] in
  let '(r, w') := Lock 1 gs Background "example.com" w in
  (time_Parse <$> lock_record gs "example.com" w) = Some (Some Fixture.noon)
  ∧ Sub (clock w) Fixture.noon = 1 * Second
  ∧ 1 * Second < LockTimeout w
  ∧ r = Some None
  ∧ lock_record gs "example.com" w' = Some "2024-05-01T12:00:01Z"
  ∧ trace w'
    = [EvRequest (ReqPutObject "certs" "acme/example.com.lock"
                    (bytes_of_string "2024-05-01T12:00:01Z")) None;
       EvRequest (ReqReadAll "certs" "acme/example.com.lock") None;
       EvRequest (ReqGetObject "certs" "acme/example.com.lock") None].
Proof. vm_compute. repeat split. Qed.

(** Claim C2, at a lock that was just taken. A first call finds no record
    for ["certA"], writes one that holds the current time and returns
    success. Five seconds later a second call finds that record, fresh and
    well-formed, and writes its own record over it at its first turn. *)
Theorem Lock_overwrites_lock_just_taken :
  let gs := Fixture.storage CleartextIO in
  let w0 := Fixture.world ∅ Fixture.noon [] in
  let '(r1, w1) := Lock 1 gs Background "certA" w0 in
  let w2 := set_clock (Fixture.noon + 5 * Second) w1 in
  let '(r2, w3) := Lock 1 gs (Fixture.until (Fixture.noon + 10 * Second)) "certA" w2 in
  lock_record gs "certA" w0 = None
  ∧ r1 = Some None
  ∧ lock_record gs "certA" w1 = Some "2024-05-01T12:00:00Z"
  ∧ r2 = Some None
  ∧ lock_record gs "certA" w3 = Some "2024-05-01T12:00:05Z"
  ∧ trace w3
    = [EvRequest (ReqPutObject "certs" "acme/certA.lock"
                    (bytes_of_string "2024-05-01T12:00:05Z")) None;
       EvRequest (ReqReadAll "certs" "acme/certA.lock") None;
       EvRequest (ReqGetObject "certs" "acme/certA.lock") None]
      ++ trace w1.
Proof. vm_compute. repeat split. Qed.

(** Claim C3, at a lock that is three minutes old and at one dated a
    minute ahead. The first is older than [LockExpiration]: [Lock] writes
    over it, and sends no removal and logs nothing. The second is the only
    kind that reaches the removal: [Lock] logs the notice and removes
    ["acme/acme/example.com.lock"], which is not the record it read but
    the lock record of the key ["acme/example.com"], held since ten
    seconds; then it writes its record. *)
Theorem Lock_stale_record_removal :
  let gs := Fixture.storage CleartextIO in
  let old := Fixture.world (Fixture.locked "2024-05-01T11:57:00Z") Fixture.noon [] in
  let ahead := Fixture.world (Fixture.locked_twice "2024-05-01T12:01:00Z") Fixture.noon [] in
  let '(r, w') := Lock 1 gs Background "example.com" old in
  let '(r2, w2) := Lock 1 gs Background "example.com" ahead in
  (LockExpiration old < Sub (clock old) (Fixture.noon - 3 * Minute)
   ∧ (time_Parse <$> lock_record gs "example.com" old) = Some (Some (Fixture.noon - 3 * Minute))
   ∧ r = Some None
   ∧ trace w'
     = [EvRequest (ReqPutObject "certs" "acme/example.com.lock"
                     (bytes_of_string "2024-05-01T12:00:00Z")) None;
        EvRequest (ReqReadAll "certs" "acme/example.com.lock") None;
        EvRequest (ReqGetObject "certs" "acme/example.com.lock") None])
  ∧ (r2 = Some None
     ∧ objLockName gs "example.com" = "acme/example.com.lock"
     ∧ objLockName gs "acme/example.com" = "acme/acme/example.com.lock"
     ∧ lock_record gs "acme/example.com" ahead = Some "2024-05-01T11:59:50Z"
     ∧ lock_record gs "acme/example.com" w2 = None
     ∧ trace w2
       = [EvRequest (ReqPutObject "certs" "acme/example.com.lock"
                       (bytes_of_string "2024-05-01T12:00:00Z")) None;
          EvRequest (ReqRemoveObject "certs" "acme/acme/example.com.lock") None;
          EvLog "[INFO][S3Storage] Lock for '%s' is stale (locked at: %s); removing then retrying: %s"
                [LStr "example.com"; LTime (Fixture.noon + 1 * Minute);
                 LStr "acme/example.com.lock"];
          EvRequest (ReqReadAll "certs" "acme/example.com.lock") None;
          EvRequest (ReqGetObject "certs" "acme/example.com.lock") None]).
Proof. vm_compute. repeat split. Qed.

(** Claim C6, at a key that has no stored object. [Load] and [Stat]
    return [fs.ErrNotExist]. [Delete] does not: when the service serves the
    removal it returns no error, and when the service answers not-found it
    returns that response as it came. *)
Theorem Delete_missing_key :
  let gs := Fixture.storage CleartextIO in
  let w := Fixture.world ∅ Fixture.noon [] in
  let w404 := Fixture.world ∅ Fixture.noon [Fixture.fails minio.NoSuchKey] in
  stored "certs" (objName gs "example.com/cert.pem") w = None
  ∧ fst (Load gs Background "example.com/cert.pem" w) = Fail ErrNotExist
  ∧ snd (fst (Stat gs Background "example.com/cert.pem" w)) = Some ErrNotExist
  ∧ fst (Delete gs Background "example.com/cert.pem" w) = None
  ∧ fst (Delete gs Background "example.com/cert.pem" w404)
    = Some (ErrorResponse 404 "NoSuchKey").
Proof. vm_compute. repeat split. Qed.

(** Claim C7, at a bucket with the certificates of two sites. Asked for
    what is below ["alpha"], [List] also returns the key of the other site,
    which does not begin with the prefixed ["alpha"]. Asked for a listing
    that is not recursive, it returns the keys two levels down, where the
    client would show the two directories. The earlier [List] hands the
    arguments on, the prefix unqualified. *)
Theorem List_returns_everything :
  let gs := Fixture.storage CleartextIO in
  let w := Fixture.world Fixture.two_sites Fixture.noon [] in
  fst (List gs Background "alpha" true w)
  = (["acme/alpha/x.crt"; "acme/beta/y.crt"], None)
  ∧ HasPrefix "acme/beta/y.crt" (objName gs "alpha") = false
  ∧ fst (List gs Background "" false w)
    = (["acme/alpha/x.crt"; "acme/beta/y.crt"], None)
  ∧ minio.Key <$> fst (minio.ListObjects Background "certs" (objName gs "") false w)
    = ["acme/alpha/"; "acme/beta/"]
  ∧ fst (Legacy.List gs Background "acme/alpha" true w) = (["acme/alpha/x.crt"], None)
  ∧ fst (Legacy.List gs Background "alpha" true w) = ([], None).
Proof. vm_compute. repeat split. Qed.



(** What that call does: it waits twice, then the deadline ends it. *)
Example Lock_deadline_run :
  let gs := Fixture.storage CleartextIO in
  let w := Fixture.world (Fixture.locked "2024-05-01T12:10:00Z") Fixture.noon [] in
  let '(r, w') := Lock 4 gs (Fixture.until (Fixture.noon + 2500000000)) "example.com" w in
  r = Some (Some DeadlineExceeded)
  ∧ clock w' = Fixture.noon + 2500000000
  ∧ lock_record gs "example.com" w' = lock_record gs "example.com" w
  ∧ existsb mutation (trace w') = false
  ∧ head (trace w') = Some EvDone
  ∧ length (filter (λ ev, is_timer ev = true) (trace w')) = 2%nat.
Proof. vm_compute. repeat split. Qed.

(** The theorem on storage errors at a read that the network cuts: the
    record is there, [GetObject] is served, reading the object fails. *)
Lemma Lock_storage_error_aborts_witness :
  let gs := Fixture.storage CleartextIO in
  let e := errorString "connection reset by peer" in
  let w := Fixture.world (Fixture.locked "2024-05-01T12:00:00Z") Fixture.noon
                         [served; Fixture.fails e] in
  let req := ReqReadAll "certs" "acme/example.com.lock" in
  let new := [EvRequest req (Some e);
              EvRequest (ReqGetObject "certs" "acme/example.com.lock") None] in
  head new = Some (EvRequest req (Some e))
  ∧ ∃ err, fst (Lock 4 gs Background "example.com" w) = Some (Some err)
           ∧ errors_Is err e = true.
Proof.
  intros gs e w req new.
  apply (proj1 (Lock_storage_error_aborts gs Background "example.com") 4%nat w
           (fst (Lock 4 gs Background "example.com" w))
           (snd (Lock 4 gs Background "example.com" w)) new req e).
  - apply surjective_pairing.
  - reflexivity.
  - apply list_elem_of_here.
  - reflexivity.
Defined.

(** Failures that do not end the acquisition. The earlier [Lock], its
    first [GetObject] cut by the network: the error is dropped, the next
    turn writes over the record of the holder, and the call returns
    success. The [Lock] that waits in a [select], the removal cut by the
    network: the error is passed over like a not-found response, the record
    is written all the same, and the call returns success. *)
Lemma Lock_passes_over_errors :
  let gs := Fixture.storage CleartextIO in
  let e := errorString "connection reset by peer" in
  let cut := Fixture.world (Fixture.locked "2024-05-01T12:10:00Z") Fixture.noon
                           [Fixture.fails e] in
  let ahead := Fixture.world (Fixture.locked "2024-05-01T12:01:00Z") Fixture.noon
                             [served; served; Fixture.fails e] in
  let '(r, w') := Legacy.Lock 2 gs Background "example.com" cut in
  let '(r2, w2) := Lock 1 gs Background "example.com" ahead in
  (r = Some None
   ∧ trace w'
     = [EvRequest (ReqPutObject "certs" "acme/example.com.lock"
                     (bytes_of_string "2024-05-01T12:00:00Z")) None;
        EvRequest (ReqGetObject "certs" "acme/example.com.lock") None;
        EvRequest (ReqGetObject "certs" "acme/example.com.lock") (Some e);
        EvLog "Better S3: Locking for %s\n" [LStr "example.com"]])
  ∧ (r2 = Some None
     ∧ take 2 (trace w2)
       = [EvRequest (ReqPutObject "certs" "acme/example.com.lock"
                       (bytes_of_string "2024-05-01T12:00:00Z")) None;
          EvRequest (ReqRemoveObject "certs" "acme/acme/example.com.lock") (Some e)]).
Proof. vm_compute. repeat split. Qed.

(** The round trip under the secret-box wrapper with the key of 32 zero
    bytes, in a bucket that holds nothing yet. *)
Lemma Store_Load_roundtrip_witness :
  let gs := Fixture.storage (SecretBoxIO Fixture.zero_key) in
  let w := Fixture.world ∅ Fixture.noon [] in
  fst (Load gs Background "certA/cert.pem"
         (snd (Store gs Background "certA/cert.pem" Fixture.payload w)))
  = Ok Fixture.payload.
Proof.
  intros gs w.
  apply (Store_Load_roundtrip gs Background Background "certA/cert.pem" Fixture.payload w).
  - reflexivity.
  - reflexivity.
  - reflexivity.
  - reflexivity.
Defined.

(** With no key what is stored is the payload itself; with the key of zero
    bytes it is not, and it still reads back as the payload. *)
Example Store_cleartext_and_sealed :
  let clear := Fixture.storage CleartextIO in
  let sealed := Fixture.storage (SecretBoxIO Fixture.zero_key) in
  let w := Fixture.world ∅ Fixture.noon [] in
  let w1 := snd (Store clear Background "certA/cert.pem" Fixture.payload w) in
  let w2 := snd (Store sealed Background "certA/cert.pem" Fixture.payload w) in
  stored "certs" "acme/certA/cert.pem" w1 = Some Fixture.payload
  ∧ fst (Load clear Background "certA/cert.pem" w1) = Ok Fixture.payload
  ∧ stored "certs" "acme/certA/cert.pem" w2 ≠ Some Fixture.payload
  ∧ fst (Load sealed Background "certA/cert.pem" w2) = Ok Fixture.payload
  ∧ fst (Load clear Background "certA/cert.pem" w2) ≠ Ok Fixture.payload.
Proof. vm_compute. repeat split; discriminate. Qed.

(** Construction with no key, with a key of 16 bytes and with one of 32
    bytes. With the key of 16 bytes the endpoint is not even looked at. *)
Example NewS3Storage_by_key_length :
  let opts (endpoint : string) (k : bytes) :=
    {| Endpoint := endpoint; Bucket := "certs"; AccessKeyID := "id";
       SecretAccessKey := "secret"; ObjPrefix := "acme"; Insecure := false;
       EncryptionKey := k |} in
  let w := Fixture.world ∅ Fixture.noon [] in
  (iowrap <$> value_of (fst (NewS3Storage Fixture.endpoint_error Background (opts "s3.example.net" []) w)))
  = Some CleartextIO
  ∧ NewS3Storage Fixture.endpoint_error Background (opts "" (replicate 16 x00)) w
    = (Fail key_error, w)
  ∧ (iowrap <$> value_of (fst (NewS3Storage Fixture.endpoint_error Background
                                     (opts "s3.example.net" Fixture.zero_key) w)))
    = Some (SecretBoxIO Fixture.zero_key).
Proof. vm_compute. repeat split. Qed.

(** The layout on a leap day and across a year's end. *)
Example RFC3339_samples :
  time_Format 0 = "1970-01-01T00:00:00Z"
  ∧ time_Format (1709251199 * Second) = "2024-02-29T23:59:59Z"
  ∧ time_Parse "2024-02-29T23:59:59Z" = Some (1709251199 * Second)
  ∧ time_Parse "2023-02-29T23:59:59Z" = None
  ∧ time_Parse "2024-12-31T23:59:59Z" = Some (1735689599 * Second)
  ∧ time_Format (1735689600 * Second) = "2025-01-01T00:00:00Z"
  ∧ time_Parse "not a time" = None.
Proof. vm_compute. repeat split. Qed.

(** ** The properties above, at work *)

Ltac evaluated := vm_compute; reflexivity.

(** A run returned [r]: by evaluation of its first component. *)
Ltac returned :=
  etransitivity; [apply surjective_pairing|]; f_equal; evaluated.

(** A world whose bucket also holds the certificates of two sites. *)
Lemma Lock_frame_witness :
  let gs := Fixture.storage CleartextIO in
  let w := Fixture.world (Fixture.locked_twice "2024-05-01T12:01:00Z") Fixture.noon [] in
  stored "certs" "acme/alpha/x.crt" (snd (Lock 1 gs Background "example.com" w))
  = stored "certs" "acme/alpha/x.crt" w.
Proof.
  intros gs w.
  apply (Lock_frame gs Background "example.com" 1 w
           (fst (Lock 1 gs Background "example.com" w))).
  - apply surjective_pairing.
  - right. split; intros Heq; vm_compute in Heq; discriminate.
Defined.

Lemma Lock_waits_only_for_future_record_witness :
  let gs := Fixture.storage CleartextIO in
  let w := Fixture.world (Fixture.locked "2024-05-01T12:10:00Z") Fixture.noon [] in
  ∃ lockedAt,
    (time_Parse <$> lock_record gs "example.com" w) = Some (Some lockedAt)
    ∧ clock w + LockTimeout w ≤ lockedAt
    ∧ clock w + LockExpiration w ≤ lockedAt
    ∧ buckets (snd (Lock 2 gs Background "example.com" w)) = buckets w.
Proof.
  intros gs w.
  apply (Lock_waits_only_for_future_record gs Background "example.com" 2 w).
  - lia.
  - returned.
Defined.

Lemma Lock_success_leaves_record_witness :
  let gs := Fixture.storage CleartextIO in
  let w := Fixture.world ∅ Fixture.noon [] in
  let w' := snd (Lock 1 gs Background "example.com" w) in
  ∃ t, clock w ≤ t ≤ clock w'
    ∧ lock_record gs "example.com" w' = Some (time_Format t)
    ∧ head (trace w')
      = Some (EvRequest (ReqPutObject (bucket gs) (objLockName gs "example.com")
                           (bytes_of_string (time_Format t))) None).
Proof.
  intros gs w w'. subst w'.
  apply (Lock_success_leaves_record gs Background "example.com" 1 w).
  returned.
Defined.

Lemma Lock_failure_keeps_record_witness :
  let gs := Fixture.storage CleartextIO in
  let e := errorString "connection reset by peer" in
  let w := Fixture.world (Fixture.locked "2024-05-01T12:00:00Z") Fixture.noon
                         [served; served; Fixture.fails e] in
  lock_record gs "example.com" (snd (Lock 1 gs Background "example.com" w))
  = lock_record gs "example.com" w.
Proof.
  intros gs e w.
  apply (Lock_failure_keeps_record gs Background "example.com" 1 w e).
  returned.
Defined.

Lemma Lock_write_is_last_witness :
  let gs := Fixture.storage CleartextIO in
  let w := Fixture.world (Fixture.locked "2024-05-01T12:00:00Z")
                         (Fixture.noon + 1 * Second) [] in
  let put := EvRequest (ReqPutObject "certs" "acme/example.com.lock"
                          (bytes_of_string "2024-05-01T12:00:01Z")) None in
  let new := [put; EvRequest (ReqReadAll "certs" "acme/example.com.lock") None;
              EvRequest (ReqGetObject "certs" "acme/example.com.lock") None] in
  head new = Some put
  ∧ "certs" = bucket gs
  ∧ "acme/example.com.lock" = objLockName gs "example.com"
  ∧ fst (Lock 1 gs Background "example.com" w) = Some None.
Proof.
  intros gs w put new.
  apply (Lock_write_is_last gs Background "example.com" 1 w
           (fst (Lock 1 gs Background "example.com" w))
           (snd (Lock 1 gs Background "example.com" w)) new).
  - apply surjective_pairing.
  - evaluated.
  - apply list_elem_of_here.
Defined.

Lemma Unlock_removes_record_witness :
  let gs := Fixture.storage CleartextIO in
  let w := Fixture.world (Fixture.locked_twice "2024-05-01T12:00:00Z") Fixture.noon [] in
  let '(r, w') := Unlock gs Background "example.com" w in
  match failure (hd served (replies w)) with
  | None =>
      r = None ∧ lock_record gs "example.com" w' = None
      ∧ ∀ b n, (b, n) ≠ (bucket gs, objLockName gs "example.com") →
               stored b n w' = stored b n w
  | Some e => r = Some e ∧ buckets w' = buckets w
  end.
Proof.
  intros gs w.
  apply (Unlock_removes_record gs Background "example.com" w).
  exists (Fixture.locked_twice "2024-05-01T12:00:00Z"). evaluated.
Defined.

Lemma Stat_stored_witness :
  let gs := Fixture.storage CleartextIO in
  let w := Fixture.world Fixture.two_sites Fixture.noon [] in
  fst (Stat gs Background "alpha/x.crt" w)
  = ({| certmagic.Key := "alpha/x.crt"; certmagic.Modified := Fixture.noon;
        certmagic.Size := 20; certmagic.IsTerminal := true |}, None).
Proof.
  intros gs w.
  apply (Stat_stored gs "alpha/x.crt" Background w Fixture.two_sites
           (Fixture.blob "certificate of alpha" Fixture.noon)); evaluated.
Defined.

Lemma Load_Stat_pass_errors_on_witness :
  let gs := Fixture.storage CleartextIO in
  let e := errorString "connection reset by peer" in
  let w := Fixture.world Fixture.two_sites Fixture.noon [] in
  let failing := {| latency := 5; failure := Some e |} in
  let first := set_replies (failing :: replies w) w in
  let second := set_replies ({| latency := 7; failure := None |} :: failing :: replies w) w in
  fst (Load gs Background "alpha/x.crt" first) = Fail e
  ∧ snd (fst (Stat gs Background "alpha/x.crt" first)) = Some e
  ∧ fst (Load gs Background "alpha/x.crt" second) = Fail e.
Proof.
  intros gs e w.
  apply (Load_Stat_pass_errors_on gs "alpha/x.crt" Background w 5%N 7%N e).
  evaluated.
Defined.

Lemma Load_Stat_not_exist_witness :
  let gs := Fixture.storage CleartextIO in
  let w := Fixture.world Fixture.two_sites Fixture.noon [] in
  fst (Load gs Background "gamma/z.crt" w) = Fail ErrNotExist
  ∧ snd (fst (Stat gs Background "gamma/z.crt" w)) = Some ErrNotExist.
Proof.
  intros gs w.
  apply (Load_Stat_not_exist gs "gamma/z.crt" Background w).
  left. repeat split; evaluated.
Defined.

Lemma Delete_then_missing_witness :
  let gs := Fixture.storage CleartextIO in
  let w := Fixture.world Fixture.two_sites Fixture.noon [] in
  let w' := snd (Delete gs Background "alpha/x.crt" w) in
  fst (Delete gs Background "alpha/x.crt" w) = None
  ∧ (∀ rs, fst (Exists gs Background "alpha/x.crt" (set_replies rs w')) = false)
  ∧ snd (fst (Stat gs Background "alpha/x.crt" w')) = Some ErrNotExist
  ∧ fst (Load gs Background "alpha/x.crt" w') = Fail ErrNotExist.
Proof.
  intros gs w w'. subst w'.
  apply (Delete_then_missing gs "alpha/x.crt" Background Background w);
    try evaluated.
  exists Fixture.two_sites. evaluated.
Defined.

Lemma Store_then_exists_witness :
  let gs := Fixture.storage (SecretBoxIO Fixture.zero_key) in
  let w := Fixture.world ∅ Fixture.noon [] in
  let w' := snd (Store gs Background "certA/cert.pem" Fixture.payload w) in
  fst (Exists gs Background "certA/cert.pem" w') = true
  ∧ certmagic.Key (fst (fst (Stat gs Background "certA/cert.pem" w'))) = "certA/cert.pem"
  ∧ snd (fst (Stat gs Background "certA/cert.pem" w')) = None.
Proof.
  intros gs w w'. subst w'.
  apply (Store_then_exists gs "certA/cert.pem" Background Background Fixture.payload w);
    evaluated.
Defined.

Lemma Lock_Unlock_Lock_witness :
  let gs := Fixture.storage CleartextIO in
  let w := Fixture.world Fixture.two_sites Fixture.noon [] in
  ∃ w1 w2 w3,
    Lock 1 gs Background "example.com" w = (Some None, w1)
    ∧ is_Some (lock_record gs "example.com" w1)
    ∧ Unlock gs Background "example.com" w1 = (None, w2)
    ∧ lock_record gs "example.com" w2 = None
    ∧ Lock 1 gs Background "example.com" w2 = (Some None, w3)
    ∧ is_Some (lock_record gs "example.com" w3)
    ∧ ∃ new, trace w3 = new ++ trace w ∧ Forall (λ ev, is_timer ev = false) new.
Proof.
  intros gs w.
  apply (Lock_Unlock_Lock gs "example.com" Background w Fixture.two_sites).
  - constructor.
  - evaluated.
  - evaluated.
Defined.

Lemma Lock_corrupt_record_witness :
  let gs := Fixture.storage CleartextIO in
  let w := Fixture.world (Fixture.locked "locked by node 7") Fixture.noon [] in
  ∃ err w',
    Lock 1 gs Background "example.com" w = (Some err, w')
    ∧ trace w' = [EvRequest (ReqPutObject (bucket gs) (objLockName gs "example.com")
                               (bytes_of_string
                                  (time_Format
                                     (clock w + Z.of_N (latency (hd served (replies w)))
                                      + Z.of_N (latency (hd served (tl (replies w))))))))
                            err;
                  EvRequest (ReqReadAll (bucket gs) (objLockName gs "example.com")) None;
                  EvRequest (ReqGetObject (bucket gs) (objLockName gs "example.com")) None]
                 ++ trace w.
Proof.
  intros gs w.
  apply (Lock_corrupt_record gs Background "example.com" 0 w
           (bytes_of_string "locked by node 7")); evaluated.
Defined.

Lemma Legacy_Lock_spins_witness :
  let gs := Fixture.storage CleartextIO in
  let e := errorString "connection reset by peer" in
  let w := Fixture.world ∅ Fixture.noon [Fixture.fails e; Fixture.fails minio.NoSuchKey] in
  ∃ w' gets,
    Legacy.Lock 2 gs Background "example.com" w = (None, w')
    ∧ buckets w' = buckets w
    ∧ replies w' = drop 2 (replies w)
    ∧ trace w' = gets ++ EvLog "Better S3: Locking for %s\n" [LStr "example.com"] :: trace w
    ∧ length gets = 2%nat
    ∧ Forall (λ ev, ∃ e, ev = EvRequest (ReqGetObject (bucket gs)
                                           (objLockName gs "example.com")) (Some e)) gets.
Proof.
  intros gs e w.
  apply (Legacy_Lock_spins gs Background "example.com" 2 w).
  - simpl. lia.
  - repeat constructor; discriminate.
Defined.

Lemma Legacy_missing_is_raw_witness :
  let gs := Fixture.storage CleartextIO in
  let w := Fixture.world Fixture.two_sites Fixture.noon [] in
  snd (fst (Legacy.Stat gs Background "gamma/z.crt" w)) = Some minio.NoSuchKey
  ∧ fst (Legacy.Load gs Background "gamma/z.crt" w) = Fail minio.NoSuchKey.
Proof.
  intros gs w.
  apply (Legacy_missing_is_raw gs Background "gamma/z.crt" w Fixture.two_sites);
    evaluated.
Defined.

Lemma Legacy_List_keys_witness :
  let gs := Fixture.storage CleartextIO in
  let w := Fixture.world Fixture.two_sites Fixture.noon [] in
  "acme/alpha/x.crt" ∈ fst (fst (Legacy.List gs Background "acme/alpha" true w))
  ↔ "acme/alpha/x.crt" ∈ dom Fixture.two_sites
    ∧ HasPrefix "acme/alpha/x.crt" "acme/alpha" = true.
Proof.
  intros gs w.
  apply (Legacy_List_keys gs Background "acme/alpha" w Fixture.two_sites); evaluated.
Defined.

Lemma Lock_overwrites_past_record_witness :
  let gs := Fixture.storage CleartextIO in
  let w := Fixture.world (Fixture.locked "2024-05-01T12:00:00Z")
                         (Fixture.noon + 10 * Second) [] in
  ∃ data err w',
    Lock 1 gs Background "example.com" w = (Some err, w')
    ∧ trace w' = [EvRequest (ReqPutObject (bucket gs) (objLockName gs "example.com") data) err;
                  EvRequest (ReqReadAll (bucket gs) (objLockName gs "example.com")) None;
                  EvRequest (ReqGetObject (bucket gs) (objLockName gs "example.com")) None]
                 ++ trace w.
Proof.
  intros gs w.
  apply (Lock_overwrites_past_record gs Background "example.com" 0 w
           (bytes_of_string "2024-05-01T12:00:00Z") Fixture.noon); evaluated.
Defined.

Lemma Lock_absent_record_witness :
  let gs := Fixture.storage CleartextIO in
  let w := Fixture.world Fixture.two_sites Fixture.noon [] in
  let now := clock w + Z.of_N (latency (hd served (replies w)))
                     + Z.of_N (latency (hd served (tl (replies w)))) in
  ∃ w', Lock 1 gs Background "example.com" w = (Some None, w')
    ∧ lock_record gs "example.com" w' = Some (time_Format now)
    ∧ trace w' = [EvRequest (ReqPutObject (bucket gs) (objLockName gs "example.com")
                               (bytes_of_string (time_Format now))) None;
                  EvRequest (ReqReadAll (bucket gs) (objLockName gs "example.com"))
                            (Some minio.NoSuchKey);
                  EvRequest (ReqGetObject (bucket gs) (objLockName gs "example.com")) None]
                 ++ trace w.
Proof.
  intros gs w.
  apply (Lock_absent_record gs Background "example.com" 0 w Fixture.two_sites);
    evaluated.
Defined.

Lemma Lock_removes_other_object_witness :
  let gs := Fixture.storage CleartextIO in
  let w := Fixture.world (Fixture.locked_twice "2024-05-01T12:01:00Z") Fixture.noon [] in
  "acme/acme/example.com.lock" = objName gs (objLockName gs "example.com")
  ∧ "acme/acme/example.com.lock" ≠ objLockName gs "example.com".
Proof.
  intros gs w.
  apply (Lock_removes_other_object gs Background "example.com" 1 w
           (fst (Lock 1 gs Background "example.com" w))
           (snd (Lock 1 gs Background "example.com" w))
           (take 5 (trace (snd (Lock 1 gs Background "example.com" w))))
           "certs" "acme/acme/example.com.lock" None).
  - apply surjective_pairing.
  - evaluated.
  - vm_compute. apply list_elem_of_further, list_elem_of_here.
Defined.

Lemma List_keys_witness :
  let gs := Fixture.storage CleartextIO in
  let w := Fixture.world Fixture.two_sites Fixture.noon [] in
  "acme/beta/y.crt" ∈ fst (fst (List gs Background "alpha" true w))
  ↔ "acme/beta/y.crt" ∈ dom Fixture.two_sites
    ∧ HasPrefix "acme/beta/y.crt" (objName gs "") = true.
Proof.
  intros gs w.
  apply (List_keys gs Background "alpha" true w Fixture.two_sites); evaluated.
Defined.

Lemma Legacy_Lock_overwrites_witness :
  let gs := Fixture.storage CleartextIO in
  let w := Fixture.world (Fixture.locked "2024-05-01T12:00:00Z")
                         (Fixture.noon + 1 * Second) [] in
  ∃ data err w',
    Legacy.Lock 1 gs Background "example.com" w = (Some err, w')
    ∧ trace w' = [EvRequest (ReqPutObject (bucket gs) (objLockName gs "example.com") data) err;
                  EvRequest (ReqGetObject (bucket gs) (objLockName gs "example.com")) None;
                  EvLog "Better S3: Locking for %s\n" [LStr "example.com"]]
                 ++ trace w.
Proof.
  intros gs w.
  apply (Legacy_Lock_overwrites gs Background "example.com" 0 w). evaluated.
Defined.
